(** * tokenbridge oracle: the AMQP client (oracle/src/services/amqpClient.js)

    A shallow embedding of the three channel roles (watcher, sender, worker)
    and of the two delay schedulers ([generateRetry],
    [generateTransactionResend]) of the oracle's queue client.

    The client is glue over a broker: every function of the source is a
    sequence of requests on a channel.  The embedding therefore has two
    layers.

    - [Channel]: the requests the source issues (assertExchange,
      assertQueue, bindQueue, prefetch, consume, sendToQueue, ack, nack) as
      transitions of an explicit broker state, with the AMQP 0-9-1 outcome
      of each: a redeclaration with other parameters is refused, a binding
      needs both ends to exist; ack and nack are fire-and-forget calls,
      which return at once and never reject.
    - the source functions, written over [Channel] in a state and error
      monad ([Chan]); an [await] is a bind, a rejected promise is
      [Rejected].

    JavaScript numbers are modelled as [Z]: retry counts, delays and
    timeouts are integers, printed in decimal by a template literal. The
    source computes in IEEE doubles, with which [Z] agrees as long as the
    numbers are safe integers: [msgRetries + 1] is exact for a count up to
    [MAX_SAFE_INTEGER] and rounds beyond it, so what is stated of the
    incremented count is stated for counts in that range. *)

From stdpp Require Import base strings list gmap pretty.
From Stdlib Require Import ZArith Lia.

Local Open Scope string_scope.
Local Open Scope list_scope.
Local Open Scope Z_scope.

(** ** Values *)

(** Payloads ([data]) and header values: what [json: true] puts on the wire. *)
#[warnings="-register-all"]
Inductive JSON : Type :=
| JNull
| JBool (b : bool)
| JNum (n : Z)
| JStr (s : string)
| JArr (items : list JSON)
| JObj (fields : list (string * JSON)).

(** What a rejected promise (or a throwing call) carries. *)
Inductive Exn : Type :=
| ERR_INVALID_URL (input : string)
| PRECONDITION_FAILED (entity : string)
| NOT_FOUND (entity : string).

(** The settled state of a promise. *)
Inductive Outcome (A : Type) : Type :=
| Resolved (a : A)
| Rejected (e : Exn).

Arguments Resolved {A} a.
Arguments Rejected {A} e.

(** JavaScript truthiness of an optional string ([undefined] and the empty
    string are falsy), as in [!process.env.ORACLE_QUEUE_URL] and
    [workerQueue ? ... : ...]. *)
Definition truthy (v : option string) : bool :=
  match v with
  | None => false
  | Some s => negb (String.eqb s "")
  end.

(** [Number.MAX_SAFE_INTEGER], 2^53 - 1: up to this count, adding 1 in
    doubles is adding 1. *)
Definition MAX_SAFE_INTEGER : Z := 9007199254740991.

(** ** The broker, as one channel sees it *)

(** The options object of [assertQueue]; a field the source leaves out is
    [None]. *)
Record QueueOptions : Type := mkQueueOptions {
  durable : bool;
  deadLetterExchange : option string;
  messageTtl : option Z;
  expires : option Z
}.

(** The options object of [sendToQueue]. *)
Record PublishOptions : Type := mkPublishOptions {
  persistent : bool;
  headers : option (list (string * JSON))
}.

Record ExchangeDecl : Type := mkExchangeDecl {
  exchangeType : string;
  exchangeDurable : bool
}.

Record Message : Type := mkMessage {
  content : JSON;
  properties : PublishOptions
}.

Record QueueState : Type := mkQueueState {
  qopts : QueueOptions;
  messages : list Message
}.

(** A message handed to a consumer and not settled yet ([msg], [job]). *)
Record Delivery : Type := mkDelivery {
  deliveryTag : Z;
  origin : string;
  body : Message
}.

Record Broker : Type := mkBroker {
  exchanges : gmap string ExchangeDecl;
  queues : gmap string QueueState;
  bindings : gset (string * string);
  prefetchCount : Z;
  consumers : list string;
  unacked : list Delivery;
  nextTag : Z
}.

#[global] Instance QueueOptions_eq_dec : EqDecision QueueOptions.
Proof. solve_decision. Defined.

#[global] Instance ExchangeDecl_eq_dec : EqDecision ExchangeDecl.
Proof. solve_decision. Defined.

Definition emptyBroker : Broker :=
  mkBroker ∅ ∅ ∅ 0 [] [] 1.

Definition with_exchanges (f : gmap string ExchangeDecl → gmap string ExchangeDecl)
    (b : Broker) : Broker :=
  mkBroker (f (exchanges b)) (queues b) (bindings b) (prefetchCount b)
           (consumers b) (unacked b) (nextTag b).

Definition with_queues (f : gmap string QueueState → gmap string QueueState)
    (b : Broker) : Broker :=
  mkBroker (exchanges b) (f (queues b)) (bindings b) (prefetchCount b)
           (consumers b) (unacked b) (nextTag b).

Definition with_bindings (f : gset (string * string) → gset (string * string))
    (b : Broker) : Broker :=
  mkBroker (exchanges b) (queues b) (f (bindings b)) (prefetchCount b)
           (consumers b) (unacked b) (nextTag b).

Definition with_prefetch (n : Z) (b : Broker) : Broker :=
  mkBroker (exchanges b) (queues b) (bindings b) n
           (consumers b) (unacked b) (nextTag b).

Definition with_consumers (f : list string → list string) (b : Broker) : Broker :=
  mkBroker (exchanges b) (queues b) (bindings b) (prefetchCount b)
           (f (consumers b)) (unacked b) (nextTag b).

Definition with_unacked (f : list Delivery → list Delivery) (b : Broker) : Broker :=
  mkBroker (exchanges b) (queues b) (bindings b) (prefetchCount b)
           (consumers b) (f (unacked b)) (nextTag b).

(** A channel computation: it reads and updates the broker, and resolves or
    rejects. *)
Definition Chan (A : Type) : Type := Broker → Outcome (A * Broker).

#[global] Instance Chan_ret : MRet Chan := λ A a b, Resolved (a, b).

#[global] Instance Chan_bind : MBind Chan := λ A B k m b,
  match m b with
  | Resolved (a, b') => k a b'
  | Rejected e => Rejected e
  end.

(** [Promise.all] over channel requests: the requests go out in array order
    on the one channel, and the first refusal rejects the whole. *)
Fixpoint promiseAll {A} (ps : list (Chan A)) : Chan (list A) :=
  match ps with
  | [] => mret []
  | p :: rest => x ← p; xs ← promiseAll rest; mret (x :: xs)
  end.

(** The queue [q] is absent, or already declared with exactly [o]. *)
Definition queue_accepts (b : Broker) (q : string) (o : QueueOptions) : Prop :=
  match queues b !! q with
  | Some st => qopts st = o
  | None => True
  end.

Definition exchange_accepts (b : Broker) (x : string) (d : ExchangeDecl) : Prop :=
  match exchanges b !! x with
  | Some d' => d' = d
  | None => True
  end.

#[global] Instance queue_accepts_dec b q o : Decision (queue_accepts b q o).
Proof. unfold queue_accepts. destruct (queues b !! q); apply _. Defined.

#[global] Instance exchange_accepts_dec b x d : Decision (exchange_accepts b x d).
Proof. unfold exchange_accepts. destruct (exchanges b !! x); apply _. Defined.

Definition enqueue (m : Message) (st : QueueState) : QueueState :=
  mkQueueState (qopts st) (messages st ++ [m]).

Definition requeue (m : Message) (st : QueueState) : QueueState :=
  mkQueueState (qopts st) (m :: messages st).

Module Channel.

(** exchange.declare: idempotent for equal parameters, refused otherwise. *)
Definition assertExchange (x type : string) (isDurable : bool) : Chan unit :=
  λ b, let d := mkExchangeDecl type isDurable in
       match exchanges b !! x with
       | Some d' =>
           if decide (d' = d) then Resolved (tt, b)
           else Rejected (PRECONDITION_FAILED x)
       | None => Resolved (tt, with_exchanges <[x := d]> b)
       end.

(** queue.declare: idempotent for equal parameters, refused otherwise. *)
Definition assertQueue (q : string) (o : QueueOptions) : Chan unit :=
  λ b, match queues b !! q with
       | Some st =>
           if decide (qopts st = o) then Resolved (tt, b)
           else Rejected (PRECONDITION_FAILED q)
       | None => Resolved (tt, with_queues <[q := mkQueueState o []]> b)
       end.

(** queue.bind: both ends must exist; binding twice is binding once. *)
Definition bindQueue (q x : string) : Chan unit :=
  λ b, match queues b !! q, exchanges b !! x with
       | None, _ => Rejected (NOT_FOUND q)
       | Some _, None => Rejected (NOT_FOUND x)
       | Some _, Some _ => Resolved (tt, with_bindings (union {[ (q, x) ]}) b)
       end.

(** basic.qos *)
Definition prefetch (n : Z) : Chan unit :=
  λ b, Resolved (tt, with_prefetch n b).

(** basic.consume: registers a consumer on an existing queue. *)
Definition consume (q : string) : Chan unit :=
  λ b, match queues b !! q with
       | None => Rejected (NOT_FOUND q)
       | Some _ => Resolved (tt, with_consumers (cons q) b)
       end.

(** basic.publish on the default exchange, routing key [q]: the message is
    appended to the queue of that name; with no such queue it is dropped. *)
Definition sendToQueue (q : string) (data : JSON) (o : PublishOptions) : Chan unit :=
  λ b, Resolved (tt, with_queues (alter (enqueue (mkMessage data o)) q) b).

(** The deliveries a tag settles: that one, or all up to it. *)
Definition settles (job : Delivery) (allUpTo : bool) (d : Delivery) : bool :=
  if allUpTo then deliveryTag d <=? deliveryTag job
  else deliveryTag d =? deliveryTag job.

(** basic.ack, a call that returns at once and never rejects: the settled
    deliveries are forgotten. [allUpTo] left out is [false]. A tag that
    settles nothing leaves the broker as it is. *)
Definition ack (job : Delivery) (allUpTo : option bool) : Chan unit :=
  λ b, let hit := settles job (default false allUpTo) in
       Resolved (tt, with_unacked (filter (λ d, hit d = false)) b).

(** basic.nack, a call that returns at once and never rejects: the settled
    deliveries leave the unacknowledged set; with [requeue] each goes back
    to the head of the queue it came from, without it they are discarded.
    A tag that settles nothing leaves the broker as it is. *)
Definition nack (job : Delivery) (allUpTo requeueFlag : bool) : Chan unit :=
  λ b, let hit := settles job allUpTo in
       let settled := filter (λ d, hit d = true) (unacked b) in
       let back qs :=
         if requeueFlag
         then foldr (λ d, alter (requeue (body d)) (origin d)) qs settled
         else qs in
       Resolved (tt, with_queues back
                       (with_unacked (filter (λ d, hit d = false)) b)).

End Channel.

(** The broker hands the head of a consumed queue to its consumer, while
    the prefetch window has room (a count of 0 is no limit). *)
Definition deliver (q : string) (b : Broker) : option (Delivery * Broker) :=
  if decide (q ∈ consumers b ∧
             (prefetchCount b = 0 ∨ Z.of_nat (length (unacked b)) < prefetchCount b))
  then
    match queues b !! q with
    | Some (mkQueueState o (m :: rest)) =>
        let d := mkDelivery (nextTag b) q m in
        Some (d, mkBroker (exchanges b) (<[q := mkQueueState o rest]> (queues b))
                          (bindings b) (prefetchCount b) (consumers b)
                          (unacked b ++ [d]) (nextTag b + 1))
    | _ => None
    end
  else None.

(** ** The client *)

(** The object a sender's or a worker's callback receives per message. A key
    the role does not hand out is [None] (reading it gives [undefined]).
    The [channel] key is the channel itself, which [Chan] threads. *)
Record HandlerArgs : Type := mkHandlerArgs {
  msg : Delivery;
  ackMsg : Delivery → Chan unit;
  nackMsg : Delivery → Chan unit;
  sendToSenderQueue : option (JSON → Chan unit);
  scheduleForRetry : JSON → option Z → Chan unit;
  scheduleTransactionResend : option (JSON → Chan unit)
}.

(** The object a watcher's callback receives. *)
Record WatcherArgs : Type := mkWatcherArgs {
  sendToQueue : JSON → Chan unit;
  sendToWorker : option (JSON → Chan unit)
}.

(** A channel as [createChannel] leaves it: the setup routine, run on every
    connect, and what the client made of the caller's callback. *)
Record Session (R : Type) : Type := mkSession {
  setup : Chan (list unit);
  handed : R
}.

Arguments mkSession {R} setup handed.
Arguments setup {R} s.
Arguments handed {R} s.

Definition durableQueue : QueueOptions :=
  mkQueueOptions true None None None.

Section Client.

(** [getRetrySequence] of ../utils/utils: the backoff, in seconds, of the
    n-th retry. *)
Variable getRetrySequence : Z → Z.

(** [TRANSACTION_RESEND_TIMEOUT] of ../utils/constants, in milliseconds. *)
Variable TRANSACTION_RESEND_TIMEOUT : Z.

(** [new url.URL(s).hostname]; [None] when the constructor throws. *)
Variable URL_hostname : string → option string.

(** The [err] that [dns.lookup] passes to its callback; [None] is [null]. *)
Variable dns_lookup : string → option string.

Definition isAttached (ORACLE_QUEUE_URL : option string) : Outcome bool :=
  if negb (truthy ORACLE_QUEUE_URL) then Resolved false
  else
    let input := default "" ORACLE_QUEUE_URL in
    match URL_hostname input with
    | None => Rejected (ERR_INVALID_URL input)
    | Some amqpHost => Resolved (bool_decide (dns_lookup amqpHost = None))
    end.

(** The numbers of [generateRetry] are doubles in the source: [retries] is
    [msgRetries + 1] as written here for a count up to [MAX_SAFE_INTEGER],
    and the template literal prints an integer delay in decimal. *)
Definition generateRetry (data : JSON) (msgRetries : Z)
    (queueName deadLetterExchange : string) : Chan unit :=
  let retries := msgRetries + 1 in
  let delay := getRetrySequence retries * 1000 in
  let retryQueue := queueName +:+ "-retry-" +:+ pretty delay in
  Channel.assertQueue retryQueue
    (mkQueueOptions true (Some deadLetterExchange) (Some delay) (Some (delay * 10)));;
  Channel.sendToQueue retryQueue data
    (mkPublishOptions true (Some [("x-retries", JNum retries)])).

Definition generateTransactionResend (data : JSON)
    (queueName deadLetterExchange : string) : Chan unit :=
  let retryQueue := queueName +:+ "-check-tx-status" in
  Channel.assertQueue retryQueue
    (mkQueueOptions true (Some deadLetterExchange)
       (Some TRANSACTION_RESEND_TIMEOUT) (Some (TRANSACTION_RESEND_TIMEOUT * 10)));;
  Channel.sendToQueue retryQueue data (mkPublishOptions true None).

Definition connectWatcherToQueue {R} (queueName : string)
    (workerQueue : option string) (cb : WatcherArgs → R) : Session R :=
  let queueList :=
    if truthy workerQueue then [queueName; default "" workerQueue]
    else [queueName] in
  let setup :=
    promiseAll (map (λ queue, Channel.assertQueue queue durableQueue) queueList) in
  let sendToQueue := λ data,
    Channel.sendToQueue queueName data (mkPublishOptions true None) in
  let sendToWorker :=
    if truthy workerQueue
    then Some (λ data, Channel.sendToQueue (default "" workerQueue) data
                         (mkPublishOptions true None))
    else None in
  mkSession setup (cb (mkWatcherArgs sendToQueue sendToWorker)).

Definition connectSenderToQueue {R} (queueName : string)
    (cb : HandlerArgs → R) : Session (Delivery → R) :=
  let deadLetterExchange := queueName +:+ "-retry" in
  mkSession
    (promiseAll [
       Channel.assertExchange deadLetterExchange "fanout" true;
       Channel.assertQueue queueName durableQueue;
       Channel.bindQueue queueName deadLetterExchange;
       Channel.prefetch 1;
       Channel.consume queueName ])
    (λ msg,
       cb (mkHandlerArgs msg
             (λ job, Channel.ack job None)
             (λ job, Channel.nack job false true)
             None
             (λ data msgRetries,
                generateRetry data (default 0 msgRetries) queueName deadLetterExchange)
             (Some (λ data,
                generateTransactionResend data queueName deadLetterExchange)))).

Definition connectWorkerToQueue {R} (queueName senderQueue : string)
    (cb : HandlerArgs → R) : Session (Delivery → R) :=
  let deadLetterExchange := queueName +:+ "-retry" in
  mkSession
    (promiseAll [
       Channel.assertExchange deadLetterExchange "fanout" true;
       Channel.assertQueue queueName durableQueue;
       Channel.assertQueue senderQueue durableQueue;
       Channel.bindQueue queueName deadLetterExchange;
       Channel.prefetch 1;
       Channel.consume queueName ])
    (λ msg,
       cb (mkHandlerArgs msg
             (λ job, Channel.ack job None)
             (λ job, Channel.nack job false true)
             (Some (λ data,
                Channel.sendToQueue senderQueue data (mkPublishOptions true None)))
             (λ data msgRetries,
                generateRetry data (default 0 msgRetries) queueName deadLetterExchange)
             None)).

End Client.

(** ** Observations and sample inputs *)

(** The messages waiting in queue [q] (none when there is no such queue). *)
Definition pending (b : Broker) (q : string) : list Message :=
  from_option messages [] (queues b !! q).

(** The parameters [generateRetry] declares a retry queue with. *)
Definition retryQueueOptions (deadLetterExchange : string) (delay : Z) : QueueOptions :=
  mkQueueOptions true (Some deadLetterExchange) (Some delay) (Some (delay * 10)).

(** A durable declaration of [q] that went through: existing messages stay. *)
Definition declareDurable (q : string) (b : Broker) : Broker :=
  with_queues <[q := mkQueueState durableQueue (pending b q)]> b.

(** The broker after a watcher's setup went through. *)
Definition afterWatcherSetup (queueName : string) (workerQueue : option string)
    (b : Broker) : Broker :=
  let target := declareDurable queueName b in
  if truthy workerQueue then declareDurable (default "" workerQueue) target
  else target.

(** A watcher's setup and sends change queues only. *)
Ltac watcher_frame :=
  unfold afterWatcherSetup; by destruct (truthy _).

(** The broker after a sender's setup went through. *)
Definition afterSenderSetup (queueName : string) (b : Broker) : Broker :=
  let deadLetterExchange := queueName +:+ "-retry" in
  with_consumers (cons queueName)
    (with_prefetch 1
       (with_bindings (union {[ (queueName, deadLetterExchange) ]})
          (with_queues <[queueName := mkQueueState durableQueue (pending b queueName)]>
             (with_exchanges <[deadLetterExchange := mkExchangeDecl "fanout" true]> b)))).

(** The broker after a worker's setup went through. *)
Definition afterWorkerSetup (queueName senderQueue : string) (b : Broker) : Broker :=
  let deadLetterExchange := queueName +:+ "-retry" in
  let declared :=
    with_queues <[queueName := mkQueueState durableQueue (pending b queueName)]>
      (with_exchanges <[deadLetterExchange := mkExchangeDecl "fanout" true]> b) in
  with_consumers (cons queueName)
    (with_prefetch 1
       (with_bindings (union {[ (queueName, deadLetterExchange) ]})
          (with_queues
             <[senderQueue := mkQueueState durableQueue (pending declared senderQueue)]>
             declared))).

(** What both consuming roles set up around their work queue. *)
Definition consumerTopology (queueName : string) (b : Broker) : Prop :=
  exchanges b !! (queueName +:+ "-retry") = Some (mkExchangeDecl "fanout" true)
  ∧ qopts <$> queues b !! queueName = Some durableQueue
  ∧ (queueName, queueName +:+ "-retry") ∈ bindings b
  ∧ prefetchCount b = 1
  ∧ queueName ∈ consumers b.

(** A sample value for [getRetrySequence]: the backoff of the payments
    scenario, 5, 15, then 60 seconds. Attempt [n] waits the [n]-th entry,
    and the last one from there on. *)
Definition paymentsBackoff (attempt : Z) : Z :=
  default 60 ([5; 15; 60] !! Z.to_nat (attempt - 1)).

Definition sampleTx : JSON :=
  JObj [("txHash", JStr "0xabc"); ("value", JNum 7)].

(** A delivery from the work queue that already went through two retries. *)
Definition sampleJob : Delivery :=
  mkDelivery 1 "payments"
    (mkMessage sampleTx (mkPublishOptions true (Some [("x-retries", JNum 2)]))).

(** A second delivery from the same queue, on its first attempt. *)
Definition laterJob : Delivery :=
  mkDelivery 2 "payments" (mkMessage (JStr "later") (mkPublishOptions true None)).

(** A broker in the middle of work: "payments" is declared and consumed,
    and two deliveries from it are outstanding, [sampleJob] the older. *)
Definition busyBroker : Broker :=
  mkBroker {[ "payments-retry" := mkExchangeDecl "fanout" true ]}
           {[ "payments" := mkQueueState durableQueue [] ]}
           {[ ("payments", "payments-retry") ]}
           0 ["payments"] [sampleJob; laterJob] 3.

(** A sender at work under prefetch 1: [sampleJob] is outstanding and a
    further message waits in "payments". *)
Definition prefetchedBroker : Broker :=
  mkBroker {[ "payments-retry" := mkExchangeDecl "fanout" true ]}
           {[ "payments" :=
                mkQueueState durableQueue
                  [mkMessage (JStr "later") (mkPublishOptions true None)] ]}
           {[ ("payments", "payments-retry") ]}
           1 ["payments"] [sampleJob] 2.

(** A resolver and a URL parser for sample runs: one broker URL whose host
    resolves, one whose host does not, and everything else unparseable. *)
Definition sampleHostname (input : string) : option string :=
  if String.eqb input "amqp://rabbit:5672" then Some "rabbit"
  else if String.eqb input "amqp://nowhere.invalid" then Some "nowhere.invalid"
  else None.

Definition sampleLookup (host : string) : option string :=
  if String.eqb host "rabbit" then None else Some "ENOTFOUND".

(** ** Invariants of a broker that this client talks to *)

(** [m] keeps [P]: whenever it resolves from a broker with [P], the broker
    it leaves has [P]. *)
Definition preserves {A} (P : Broker → Prop) (m : Chan A) : Prop :=
  ∀ b r b', P b → m b = Resolved (r, b') → P b'.

(** Nothing on the broker would be lost in a restart: every exchange and
    queue is durable, and every message, waiting or outstanding, is
    persistent. *)
Definition allDurable (b : Broker) : Prop :=
  (∀ x d, exchanges b !! x = Some d → exchangeDurable d = true)
  ∧ (∀ q st, queues b !! q = Some st →
       durable (qopts st) = true
       ∧ Forall (λ m, persistent (properties m) = true) (messages st))
  ∧ Forall (λ d, persistent (properties (body d)) = true) (unacked b).

(** The delay queues of work queue [queueName] that exist are declared the
    way the client declares them: a retry queue for [delay] with that TTL,
    the resend queue with [timeout], all dead-lettering into
    [queueName-retry]. *)
Definition delayQueuesConsistent (timeout : Z) (queueName : string) (b : Broker) : Prop :=
  (∀ delay, queue_accepts b (queueName +:+ "-retry-" +:+ pretty delay)
              (mkQueueOptions true (Some (queueName +:+ "-retry"))
                 (Some delay) (Some (delay * 10))))
  ∧ queue_accepts b (queueName +:+ "-check-tx-status")
      (mkQueueOptions true (Some (queueName +:+ "-retry"))
         (Some timeout) (Some (timeout * 10))).

(** A broker on which "payments" was declared by someone else, not durable. *)
Definition foreignBroker : Broker :=
  mkBroker ∅ {[ "payments" := mkQueueState (mkQueueOptions false None None None) [] ]}
           ∅ 0 [] [] 1.

(** ** Requests on the channel *)

Lemma await_resolved {A B} (m : Chan A) (k : A → Chan B) b a b' :
  m b = Resolved (a, b') → (m ≫= k) b = k a b'.
Proof. intros H. unfold mbind, Chan_bind. by rewrite H. Qed.

Lemma await_rejected {A B} (m : Chan A) (k : A → Chan B) b e :
  m b = Rejected e → (m ≫= k) b = Rejected e.
Proof. intros H. unfold mbind, Chan_bind. by rewrite H. Qed.

Lemma assertQueue_accepted b q o :
  queue_accepts b q o →
  Channel.assertQueue q o b
  = Resolved (tt, with_queues <[q := mkQueueState o (pending b q)]> b).
Proof.
  unfold queue_accepts, Channel.assertQueue, pending.
  destruct (queues b !! q) as [[o' ms]|] eqn:Hq; simpl.
  - intros ->. rewrite decide_True by done.
    do 2 f_equal. destruct b; unfold with_queues; simpl in *.
    f_equal. symmetry. by apply insert_id.
  - done.
Qed.

Lemma assertQueue_refused b q o :
  ¬ queue_accepts b q o →
  Channel.assertQueue q o b = Rejected (PRECONDITION_FAILED q).
Proof.
  unfold queue_accepts, Channel.assertQueue.
  destruct (queues b !! q) as [st|]; [|tauto].
  intros Hne. by rewrite decide_False.
Qed.

Lemma assertExchange_accepted b x type isDurable :
  exchange_accepts b x (mkExchangeDecl type isDurable) →
  Channel.assertExchange x type isDurable b
  = Resolved (tt, with_exchanges <[x := mkExchangeDecl type isDurable]> b).
Proof.
  unfold exchange_accepts, Channel.assertExchange.
  destruct (exchanges b !! x) as [d|] eqn:Hx; simpl.
  - intros ->. rewrite decide_True by done.
    do 2 f_equal. destruct b; unfold with_exchanges; simpl in *.
    f_equal. symmetry. by apply insert_id.
  - done.
Qed.

Lemma pending_insert b q st :
  pending (with_queues <[q := st]> b) q = messages st.
Proof. unfold pending. simpl. by rewrite lookup_insert_eq. Qed.

Lemma queue_accepts_insert b q o ms :
  queue_accepts (with_queues <[q := mkQueueState o ms]> b) q o.
Proof. unfold queue_accepts. simpl. by rewrite lookup_insert_eq. Qed.

(** What a run of [generateRetry] leaves behind, when the broker accepts
    the declaration. *)
Lemma generateRetry_run getRetrySequence data msgRetries queueName dlx b :
  let retries := msgRetries + 1 in
  let delay := getRetrySequence retries * 1000 in
  let retryQueue := queueName +:+ "-retry-" +:+ pretty delay in
  let sent := mkMessage data (mkPublishOptions true (Some [("x-retries", JNum retries)])) in
  queue_accepts b retryQueue (retryQueueOptions dlx delay) →
  generateRetry getRetrySequence data msgRetries queueName dlx b
  = Resolved (tt, with_queues
                    <[retryQueue := mkQueueState (retryQueueOptions dlx delay)
                                      (pending b retryQueue ++ [sent])]> b).
Proof.
  intros retries delay retryQueue sent Hacc.
  unfold generateRetry.
  erewrite await_resolved by (by apply assertQueue_accepted).
  unfold Channel.sendToQueue. do 2 f_equal.
  destruct b; unfold with_queues; simpl. f_equal.
  by rewrite alter_insert_eq.
Qed.

(** A conflicting declaration rejects the retry before anything is sent. *)
Lemma generateRetry_conflict getRetrySequence data msgRetries queueName dlx b :
  let delay := getRetrySequence (msgRetries + 1) * 1000 in
  let retryQueue := queueName +:+ "-retry-" +:+ pretty delay in
  ¬ queue_accepts b retryQueue (retryQueueOptions dlx delay) →
  generateRetry getRetrySequence data msgRetries queueName dlx b
  = Rejected (PRECONDITION_FAILED retryQueue).
Proof.
  intros delay retryQueue Hno. unfold generateRetry.
  by erewrite await_rejected by (by apply assertQueue_refused).
Qed.

Lemma generateTransactionResend_run TIMEOUT data queueName dlx b :
  let retryQueue := queueName +:+ "-check-tx-status" in
  let sent := mkMessage data (mkPublishOptions true None) in
  queue_accepts b retryQueue (retryQueueOptions dlx TIMEOUT) →
  generateTransactionResend TIMEOUT data queueName dlx b
  = Resolved (tt, with_queues
                    <[retryQueue := mkQueueState (retryQueueOptions dlx TIMEOUT)
                                      (pending b retryQueue ++ [sent])]> b).
Proof.
  intros retryQueue sent Hacc.
  unfold generateTransactionResend.
  erewrite await_resolved by (by apply assertQueue_accepted).
  unfold Channel.sendToQueue. do 2 f_equal.
  destruct b; unfold with_queues; simpl. f_equal.
  by rewrite alter_insert_eq.
Qed.

(** ** The retry scheduler *)

(** C1 (as amended). For every payload [data] and every retry count [n]
    from 0 up to [MAX_SAFE_INTEGER] (the counts whose increment is exact in
    the source's doubles), [generateRetry] takes [nextRetryCount = n + 1]
    and [delayMillis = getRetrySequence (n + 1) * 1000], and, when the
    broker accepts the declaration of the retry queue, resolves having
    appended [data] as a persistent message to the queue named
    [queueName-retry-delayMillis], the name being a function of the work
    queue's name and the delay alone. The message carries the header
    [x-retries] (the claim's [retries] is not the key the code writes) with
    value [nextRetryCount]; no other queue changes. *)
Theorem scheduleRetry_publishes getRetrySequence data n queueName deadLetterExchange b :
  let nextRetryCount := n + 1 in
  let delayMillis := getRetrySequence nextRetryCount * 1000 in
  let retryQueue := queueName +:+ "-retry-" +:+ pretty delayMillis in
  0 ≤ n ≤ MAX_SAFE_INTEGER →
  queue_accepts b retryQueue
    (mkQueueOptions true (Some deadLetterExchange) (Some delayMillis)
       (Some (delayMillis * 10))) →
  ∃ b',
    generateRetry getRetrySequence data n queueName deadLetterExchange b
    = Resolved (tt, b')
    ∧ pending b' retryQueue
      = pending b retryQueue
        ++ [mkMessage data
              (mkPublishOptions true (Some [("x-retries", JNum nextRetryCount)]))]
    ∧ ∀ q, q ≠ retryQueue → queues b' !! q = queues b !! q.
Proof.
  intros nextRetryCount delayMillis retryQueue Hsafe Hacc.
  eexists. split; [by apply generateRetry_run|].
  split.
  - by rewrite pending_insert.
  - intros q Hq. simpl. by rewrite lookup_insert_ne.
Qed.

Lemma scheduleRetry_publishes_witness :
  0 ≤ 0 ≤ MAX_SAFE_INTEGER
  ∧ queue_accepts emptyBroker "payments-retry-5000"
    (mkQueueOptions true (Some "payments-retry") (Some 5000) (Some 50000))
  ∧ ∃ b',
      generateRetry paymentsBackoff sampleTx 0 "payments" "payments-retry" emptyBroker
      = Resolved (tt, b')
      ∧ pending b' "payments-retry-5000"
        = [mkMessage sampleTx (mkPublishOptions true (Some [("x-retries", JNum 1)]))]
      ∧ ∀ q, q ≠ "payments-retry-5000" → queues b' !! q = queues emptyBroker !! q.
Proof.
  assert (0 ≤ 0 ≤ MAX_SAFE_INTEGER) as Hsafe by (unfold MAX_SAFE_INTEGER; lia).
  split; [exact Hsafe|]. split; [exact I|].
  apply (scheduleRetry_publishes paymentsBackoff sampleTx 0
           "payments" "payments-retry" emptyBroker Hsafe).
  exact I.
Defined.

(** C1 as stated fails: the message published by [scheduleRetry(data, 0)]
    on work queue "payments" does not carry the header [{retries: 1}]. *)
Lemma scheduleRetry_retries_key_counterexample :
  ¬ ∃ b',
      generateRetry paymentsBackoff sampleTx 0 "payments" "payments-retry" emptyBroker
      = Resolved (tt, b')
      ∧ pending b' "payments-retry-5000"
        = pending emptyBroker "payments-retry-5000"
          ++ [mkMessage sampleTx (mkPublishOptions true (Some [("retries", JNum 1)]))].
Proof.
  intros (b' & Hrun & Hsent).
  rewrite generateRetry_run in Hrun by exact I.
  injection Hrun as <-.
  rewrite pending_insert in Hsent. simpl in Hsent.
  vm_compute in Hsent. discriminate Hsent.
Qed.

(** The retry capability of either consuming role is [generateRetry] on the
    role's own work queue and dead-letter exchange; a retry count left out
    is 0. The delivered message takes no part in it. *)
Lemma sender_scheduleForRetry {R} getRetrySequence TIMEOUT queueName
    (cb : HandlerArgs → R) job :
  handed (connectSenderToQueue getRetrySequence TIMEOUT queueName cb) job
  = cb (handed (connectSenderToQueue getRetrySequence TIMEOUT queueName (λ a, a)) job)
  ∧ ∀ data msgRetries,
      scheduleForRetry
        (handed (connectSenderToQueue getRetrySequence TIMEOUT queueName (λ a, a)) job)
        data msgRetries
      = generateRetry getRetrySequence data (default 0 msgRetries)
          queueName (queueName +:+ "-retry").
Proof. done. Qed.

Lemma worker_scheduleForRetry {R} getRetrySequence queueName senderQueue
    (cb : HandlerArgs → R) job :
  handed (connectWorkerToQueue getRetrySequence queueName senderQueue cb) job
  = cb (handed (connectWorkerToQueue getRetrySequence queueName senderQueue (λ a, a)) job)
  ∧ ∀ data msgRetries,
      scheduleForRetry
        (handed (connectWorkerToQueue getRetrySequence queueName senderQueue (λ a, a)) job)
        data msgRetries
      = generateRetry getRetrySequence data (default 0 msgRetries)
          queueName (queueName +:+ "-retry").
Proof. done. Qed.

(** C10. For every retry scheduled via [generateRetry], whatever the
    delivered message [job] that is being retried carried, the republished
    message is [data] with publish options that are exactly persistence and
    a header map of one key, the literal [x-retries], bound to a number,
    the incremented count: nothing of [job] reaches the new message. The
    number is [n + 1] for every count [n] from 0 up to [MAX_SAFE_INTEGER],
    where the source's addition is exact. *)
Theorem retry_message_options getRetrySequence TIMEOUT data n queueName job b :
  let delay := getRetrySequence (n + 1) * 1000 in
  let retryQueue := queueName +:+ "-retry-" +:+ pretty delay in
  queue_accepts b retryQueue
    (mkQueueOptions true (Some (queueName +:+ "-retry")) (Some delay) (Some (delay * 10))) →
  ∃ b' sent retries,
    scheduleForRetry
      (handed (connectSenderToQueue getRetrySequence TIMEOUT queueName (λ a, a)) job)
      data (Some n) b
    = Resolved (tt, b')
    ∧ generateRetry getRetrySequence data n queueName (queueName +:+ "-retry") b
      = Resolved (tt, b')
    ∧ last (pending b' retryQueue) = Some sent
    ∧ content sent = data
    ∧ properties sent = mkPublishOptions true (Some [("x-retries", JNum retries)])
    ∧ (∀ key value,
         (key, value) ∈ default [] (headers (properties sent))
         ↔ key = "x-retries" ∧ value = JNum retries)
    ∧ (0 ≤ n ≤ MAX_SAFE_INTEGER → retries = n + 1).
Proof.
  intros delay retryQueue Hacc.
  eexists _, (mkMessage data _), _.
  split; [by apply generateRetry_run|].
  split; [by apply generateRetry_run|].
  split; [rewrite pending_insert; simpl; by rewrite last_snoc|].
  split; [done|]. split; [done|].
  split; [|done].
  intros key value. simpl. rewrite list_elem_of_singleton.
  split; [by intros [= -> ->] | by intros [-> ->]].
Qed.

Lemma retry_message_options_witness :
  queue_accepts emptyBroker "payments-retry-60000"
    (mkQueueOptions true (Some "payments-retry") (Some 60000) (Some 600000))
  ∧ 0 ≤ 2 ≤ MAX_SAFE_INTEGER
  ∧ ∃ b' sent,
      scheduleForRetry
        (handed (connectSenderToQueue paymentsBackoff 300000 "payments" (λ a, a)) sampleJob)
        sampleTx (Some 2) emptyBroker
      = Resolved (tt, b')
      ∧ generateRetry paymentsBackoff sampleTx 2 "payments" "payments-retry" emptyBroker
        = Resolved (tt, b')
      ∧ last (pending b' "payments-retry-60000") = Some sent
      ∧ content sent = sampleTx
      ∧ properties sent = mkPublishOptions true (Some [("x-retries", JNum 3)])
      ∧ (∀ key value,
           (key, value) ∈ default [] (headers (properties sent))
           ↔ key = "x-retries" ∧ value = JNum 3).
Proof.
  assert (0 ≤ 2 ≤ MAX_SAFE_INTEGER) as Hsafe by (unfold MAX_SAFE_INTEGER; lia).
  split; [exact I|]. split; [exact Hsafe|].
  destruct (retry_message_options paymentsBackoff 300000 sampleTx 2 "payments"
              sampleJob emptyBroker I)
    as (b' & sent & retries & Hcap & Hrun & Hlast & Hdata & Hprops & Hkeys & Hcount).
  rewrite (Hcount Hsafe) in Hprops, Hkeys.
  exists b', sent.
  split; [exact Hcap|]. split; [exact Hrun|]. split; [exact Hlast|].
  split; [exact Hdata|]. split; [exact Hprops | exact Hkeys].
Defined.

(** C2 (as amended). Every retry declares its retry queue durable,
    dead-lettering into the exchange it is given, with a per-message TTL of
    [delayMillis] and a queue expiry of [delayMillis * 10]. In particular,
    for work queue "payments" and a backoff whose first wait is 5 seconds
    (the sequence 5, 15, 60), [scheduleRetry(msg, 0)] of the sender role
    declares "payments-retry-5000", dead-lettering into "payments-retry",
    with TTL 5000 ms and expiry 50000 ms, and the message it publishes there
    carries the header [x-retries] = 1 (not [retries], as the claim has it). *)
Theorem retry_queue_declaration getRetrySequence :
  (∀ data n queueName dlx b,
     let delayMillis := getRetrySequence (n + 1) * 1000 in
     let retryQueue := queueName +:+ "-retry-" +:+ pretty delayMillis in
     queue_accepts b retryQueue
       (mkQueueOptions true (Some dlx) (Some delayMillis)
          (Some (delayMillis * 10))) →
     ∃ b' st,
       generateRetry getRetrySequence data n queueName dlx b
       = Resolved (tt, b')
       ∧ queues b' !! retryQueue = Some st
       ∧ durable (qopts st) = true
       ∧ deadLetterExchange (qopts st) = Some dlx
       ∧ messageTtl (qopts st) = Some delayMillis
       ∧ expires (qopts st) = Some (delayMillis * 10))
  ∧ (getRetrySequence 1 = 5 →
     ∀ TIMEOUT job message b,
       queue_accepts b "payments-retry-5000"
         (mkQueueOptions true (Some "payments-retry") (Some 5000) (Some 50000)) →
       ∃ b',
         scheduleForRetry
           (handed (connectSenderToQueue getRetrySequence TIMEOUT "payments" (λ a, a)) job)
           message (Some 0) b
         = Resolved (tt, b')
         ∧ queues b' !! "payments-retry-5000"
           = Some (mkQueueState
                     (mkQueueOptions true (Some "payments-retry") (Some 5000) (Some 50000))
                     (pending b "payments-retry-5000"
                      ++ [mkMessage message
                            (mkPublishOptions true (Some [("x-retries", JNum 1)]))]))).
Proof.
  split.
  - intros data n queueName dlx b delayMillis retryQueue Hacc.
    eexists _, _. split; [by apply generateRetry_run|].
    split; [apply lookup_insert_eq|done].
  - intros Hfirst TIMEOUT job message b Hacc.
    pose proof (generateRetry_run getRetrySequence message 0
                  "payments" "payments-retry" b) as Hrun.
    cbv zeta in Hrun. change (0 + 1) with 1 in Hrun. rewrite Hfirst in Hrun.
    change (5 * 1000) with 5000 in Hrun.
    change ("payments" +:+ "-retry-" +:+ pretty 5000)
      with "payments-retry-5000" in Hrun.
    eexists. split; [exact (Hrun Hacc)|].
    apply lookup_insert_eq.
Qed.

Lemma retry_queue_declaration_witness :
  paymentsBackoff 1 = 5
  ∧ queue_accepts emptyBroker "payments-retry-5000"
      (mkQueueOptions true (Some "payments-retry") (Some 5000) (Some 50000))
  ∧ ∃ b',
      scheduleForRetry
        (handed (connectSenderToQueue paymentsBackoff 300000 "payments" (λ a, a)) sampleJob)
        sampleTx (Some 0) emptyBroker
      = Resolved (tt, b')
      ∧ queues b' !! "payments-retry-5000"
        = Some (mkQueueState
                  (mkQueueOptions true (Some "payments-retry") (Some 5000) (Some 50000))
                  (pending emptyBroker "payments-retry-5000"
                   ++ [mkMessage sampleTx
                         (mkPublishOptions true (Some [("x-retries", JNum 1)]))])).
Proof.
  split; [reflexivity|]. split; [exact I|].
  exact (proj2 (retry_queue_declaration paymentsBackoff) eq_refl
           300000 sampleJob sampleTx emptyBroker I).
Defined.

(** C2 as stated fails on its own scenario: after [scheduleRetry(msg, 0)] on
    "payments" with backoff 5, 15, 60, the queue "payments-retry-5000" does
    not hold a message with header [{retries: 1}]. *)
Lemma payments_scenario_retries_key_counterexample :
  ¬ ∃ b',
      scheduleForRetry
        (handed (connectSenderToQueue paymentsBackoff 300000 "payments" (λ a, a)) sampleJob)
        sampleTx (Some 0) emptyBroker
      = Resolved (tt, b')
      ∧ queues b' !! "payments-retry-5000"
        = Some (mkQueueState
                  (mkQueueOptions true (Some "payments-retry") (Some 5000) (Some 50000))
                  [mkMessage sampleTx
                     (mkPublishOptions true (Some [("retries", JNum 1)]))]).
Proof.
  intros (b' & Hrun & Hqueue).
  change (generateRetry paymentsBackoff sampleTx 0 "payments" "payments-retry" emptyBroker
          = Resolved (tt, b')) in Hrun.
  rewrite generateRetry_run in Hrun by exact I.
  injection Hrun as <-.
  simpl in Hqueue. rewrite lookup_insert_eq in Hqueue.
  vm_compute in Hqueue. discriminate Hqueue.
Qed.

(** ** Reuse of retry queues *)

(** C6. Two retries on one work queue (any payloads, any counts) whose
    computed delays are equal name the same retry queue and declare it with
    the same parameters (dead-letter exchange, TTL, expiry); run one after
    the other from a broker that accepts the first declaration, both
    resolve, the second declares no new queue and finds no conflict, and
    both payloads wait in the one queue as persistent messages (with header
    [x-retries] the count plus one, for counts from 0 up to
    [MAX_SAFE_INTEGER]). *)
Theorem equal_delay_shares_retry_queue getRetrySequence
    data1 n1 data2 n2 queueName deadLetterExchange b :
  let delay1 := getRetrySequence (n1 + 1) * 1000 in
  let delay2 := getRetrySequence (n2 + 1) * 1000 in
  let queue1 := queueName +:+ "-retry-" +:+ pretty delay1 in
  let queue2 := queueName +:+ "-retry-" +:+ pretty delay2 in
  let options1 :=
    mkQueueOptions true (Some deadLetterExchange) (Some delay1) (Some (delay1 * 10)) in
  let options2 :=
    mkQueueOptions true (Some deadLetterExchange) (Some delay2) (Some (delay2 * 10)) in
  delay1 = delay2 →
  queue_accepts b queue1 options1 →
  queue1 = queue2
  ∧ options1 = options2
  ∧ ∃ b1 b2,
      generateRetry getRetrySequence data1 n1 queueName deadLetterExchange b
      = Resolved (tt, b1)
      ∧ generateRetry getRetrySequence data2 n2 queueName deadLetterExchange b1
        = Resolved (tt, b2)
      ∧ queue_accepts b1 queue2 options2
      ∧ dom (queues b2) = dom (queues b1)
      ∧ qopts <$> queues b1 !! queue1 = Some options1
      ∧ qopts <$> queues b2 !! queue1 = Some options1
      ∧ ∃ sent1 sent2,
          pending b2 queue1 = pending b queue1 ++ [sent1; sent2]
          ∧ content sent1 = data1
          ∧ content sent2 = data2
          ∧ persistent (properties sent1) = true
          ∧ persistent (properties sent2) = true
          ∧ (0 ≤ n1 ≤ MAX_SAFE_INTEGER → 0 ≤ n2 ≤ MAX_SAFE_INTEGER →
             headers (properties sent1) = Some [("x-retries", JNum (n1 + 1))]
             ∧ headers (properties sent2) = Some [("x-retries", JNum (n2 + 1))]).
Proof.
  intros delay1 delay2 queue1 queue2 options1 options2 Hdelay Hacc.
  subst queue2 options2. rewrite <- Hdelay.
  split; [done|]. split; [done|].
  pose proof (generateRetry_run getRetrySequence data1 n1 queueName
                deadLetterExchange b Hacc) as Hrun1.
  cbv zeta in Hrun1. fold delay1 queue1 in Hrun1.
  set (b1 := with_queues _ b) in Hrun1.
  assert (queue_accepts b1 queue1 options1) as Hacc2
    by apply queue_accepts_insert.
  pose proof (generateRetry_run getRetrySequence data2 n2 queueName
                deadLetterExchange b1) as Hrun2.
  cbv zeta in Hrun2. fold delay2 in Hrun2. rewrite <- Hdelay in Hrun2.
  fold queue1 in Hrun2. specialize (Hrun2 Hacc2).
  eexists b1, _.
  split; [exact Hrun1|]. split; [exact Hrun2|]. split; [exact Hacc2|].
  unfold b1. simpl.
  split; [by rewrite insert_insert_eq, !dom_insert_L|].
  split; [by rewrite lookup_insert_eq|].
  split; [by rewrite lookup_insert_eq|].
  eexists (mkMessage data1 _), (mkMessage data2 _).
  split; [rewrite !pending_insert; simpl; by rewrite <- app_assoc|].
  by repeat (split; [reflexivity|]).
Qed.

Lemma equal_delay_shares_retry_queue_witness :
  paymentsBackoff (2 + 1) * 1000 = paymentsBackoff (5 + 1) * 1000
  ∧ queue_accepts emptyBroker "payments-retry-60000"
      (mkQueueOptions true (Some "payments-retry") (Some 60000) (Some 600000))
  ∧ ∃ b1 b2,
      generateRetry paymentsBackoff sampleTx 2 "payments" "payments-retry" emptyBroker
      = Resolved (tt, b1)
      ∧ generateRetry paymentsBackoff (JStr "later") 5 "payments" "payments-retry" b1
        = Resolved (tt, b2)
      ∧ dom (queues b2) = dom (queues b1)
      ∧ pending b2 "payments-retry-60000"
        = [mkMessage sampleTx (mkPublishOptions true (Some [("x-retries", JNum 3)]));
           mkMessage (JStr "later") (mkPublishOptions true (Some [("x-retries", JNum 6)]))].
Proof.
  split; [reflexivity|]. split; [exact I|].
  destruct (equal_delay_shares_retry_queue paymentsBackoff sampleTx 2 (JStr "later") 5
              "payments" "payments-retry" emptyBroker eq_refl I)
    as (_ & _ & b1 & b2 & Hrun1 & Hrun2 & _ & Hdom & _ & _
        & [c1 [p1 h1]] & [c2 [p2 h2]] & Hboth & Hc1 & Hc2 & Hp1 & Hp2 & Hcounts).
  destruct Hcounts as [Hh1 Hh2]; [unfold MAX_SAFE_INTEGER; lia..|].
  simpl in *. subst.
  exists b1, b2. split; [exact Hrun1|]. split; [exact Hrun2|].
  split; [exact Hdom | exact Hboth].
Defined.

(** ** The transaction-resend scheduler *)

(** C3. For every payload [data], the sender's [scheduleTransactionResend]
    declares the one queue [queueName-check-tx-status] with per-message TTL
    [TRANSACTION_RESEND_TIMEOUT] and expiry ten times that, and publishes
    [data] there as a persistent message with no header at all (so no
    retry-count header), whatever retry count the delivered message [job]
    carried. The worker's handler object has no such capability. *)
Theorem resend_uses_fixed_queue getRetrySequence TIMEOUT data queueName senderQueue job b :
  let resendQueue := queueName +:+ "-check-tx-status" in
  let options :=
    mkQueueOptions true (Some (queueName +:+ "-retry")) (Some TIMEOUT) (Some (TIMEOUT * 10)) in
  queue_accepts b resendQueue options →
  ∃ resend b',
    scheduleTransactionResend
      (handed (connectSenderToQueue getRetrySequence TIMEOUT queueName (λ a, a)) job)
    = Some resend
    ∧ resend data b = Resolved (tt, b')
    ∧ queues b' !! resendQueue
      = Some (mkQueueState options
                (pending b resendQueue ++ [mkMessage data (mkPublishOptions true None)]))
    ∧ (∀ q, q ≠ resendQueue → queues b' !! q = queues b !! q)
    ∧ scheduleTransactionResend
        (handed (connectWorkerToQueue getRetrySequence queueName senderQueue (λ a, a)) job)
      = None.
Proof.
  intros resendQueue options Hacc.
  eexists _, _. split; [reflexivity|].
  split; [by apply generateTransactionResend_run|].
  split; [apply lookup_insert_eq|].
  split; [|reflexivity].
  intros q Hq. simpl. by rewrite lookup_insert_ne.
Qed.

Lemma resend_uses_fixed_queue_witness :
  queue_accepts emptyBroker "payments-check-tx-status"
    (mkQueueOptions true (Some "payments-retry") (Some 300000) (Some 3000000))
  ∧ ∃ resend b',
      scheduleTransactionResend
        (handed (connectSenderToQueue paymentsBackoff 300000 "payments" (λ a, a)) sampleJob)
      = Some resend
      ∧ resend sampleTx emptyBroker = Resolved (tt, b')
      ∧ queues b' !! "payments-check-tx-status"
        = Some (mkQueueState
                  (mkQueueOptions true (Some "payments-retry") (Some 300000) (Some 3000000))
                  [mkMessage sampleTx (mkPublishOptions true None)])
      ∧ (∀ q, q ≠ "payments-check-tx-status" → queues b' !! q = queues emptyBroker !! q)
      ∧ scheduleTransactionResend
          (handed (connectWorkerToQueue paymentsBackoff "payments" "results" (λ a, a)) sampleJob)
        = None.
Proof.
  split; [exact I|].
  apply (resend_uses_fixed_queue paymentsBackoff 300000 sampleTx "payments" "results"
           sampleJob emptyBroker).
  exact I.
Defined.

(** ** The attachment probe *)

(** C5. [isAttached] resolves to [false] when no URL is configured
    (the variable unset, or empty); with a configured URL whose host is
    [host], it resolves to [false] when the lookup of [host] reports an
    error and to [true] when it reports none. *)
Theorem isAttached_probe URL_hostname dns_lookup :
  isAttached URL_hostname dns_lookup None = Resolved false
  ∧ isAttached URL_hostname dns_lookup (Some "") = Resolved false
  ∧ ∀ url host,
      url ≠ "" →
      URL_hostname url = Some host →
      (∀ err, dns_lookup host = Some err →
              isAttached URL_hostname dns_lookup (Some url) = Resolved false)
      ∧ (dns_lookup host = None →
         isAttached URL_hostname dns_lookup (Some url) = Resolved true).
Proof.
  split; [reflexivity|]. split; [reflexivity|].
  intros url host Hset Hhost. unfold isAttached, truthy.
  apply String.eqb_neq in Hset. rewrite Hset. simpl. rewrite Hhost.
  split.
  - intros err Herr. by rewrite Herr.
  - intros Hok. by rewrite Hok.
Qed.

Lemma isAttached_probe_witness :
  isAttached sampleHostname sampleLookup (Some "amqp://nowhere.invalid") = Resolved false
  ∧ isAttached sampleHostname sampleLookup (Some "amqp://rabbit:5672") = Resolved true.
Proof.
  destruct (isAttached_probe sampleHostname sampleLookup) as (_ & _ & Hprobe).
  split.
  - destruct (Hprobe "amqp://nowhere.invalid" "nowhere.invalid") as [Hfail _];
      [discriminate | reflexivity |].
    apply (Hfail "ENOTFOUND"). reflexivity.
  - destruct (Hprobe "amqp://rabbit:5672" "rabbit") as [_ Hok];
      [discriminate | reflexivity |].
    apply Hok. reflexivity.
Defined.

(** C9. When the URL variable is set (non-empty) and the URL constructor
    throws on it, [isAttached] does not resolve to [false]: it rejects with
    the constructor's exception, whatever the resolver would have answered
    (the lookup is never reached). *)
Theorem isAttached_rejects_unparseable URL_hostname dns_lookup url :
  url ≠ "" →
  URL_hostname url = None →
  isAttached URL_hostname dns_lookup (Some url) = Rejected (ERR_INVALID_URL url)
  ∧ isAttached URL_hostname dns_lookup (Some url) ≠ Resolved false.
Proof.
  intros Hset Hthrows. unfold isAttached, truthy.
  apply String.eqb_neq in Hset. rewrite Hset. simpl. by rewrite Hthrows.
Qed.

Lemma isAttached_rejects_unparseable_witness :
  isAttached sampleHostname sampleLookup (Some "rabbit.internal")
  = Rejected (ERR_INVALID_URL "rabbit.internal")
  ∧ isAttached sampleHostname sampleLookup (Some "rabbit.internal")
    ≠ Resolved false.
Proof.
  apply (isAttached_rejects_unparseable sampleHostname sampleLookup
           "rabbit.internal"); [discriminate | reflexivity].
Defined.

(** ** Settling a delivery *)

Lemma tag_identifies (l : list Delivery) d1 d2 :
  NoDup (deliveryTag <$> l) → d1 ∈ l → d2 ∈ l →
  deliveryTag d1 = deliveryTag d2 → d1 = d2.
Proof.
  induction l as [|a l IH]; intros Hnd H1 H2 Htag.
  - by apply elem_of_nil in H1.
  - rewrite fmap_cons in Hnd. apply NoDup_cons in Hnd as [Hfresh Hnd].
    apply elem_of_cons in H1 as [->|H1]; apply elem_of_cons in H2 as [->|H2].
    + done.
    + exfalso. apply Hfresh. rewrite Htag. by apply list_elem_of_fmap_2.
    + exfalso. apply Hfresh. rewrite <- Htag. by apply list_elem_of_fmap_2.
    + by apply IH.
Qed.

Lemma settles_one job d :
  Channel.settles job false d = true ↔ deliveryTag d = deliveryTag job.
Proof. unfold Channel.settles. apply Z.eqb_eq. Qed.

Lemma settled_alone (l : list Delivery) job :
  NoDup (deliveryTag <$> l) → job ∈ l →
  filter (λ d, Channel.settles job false d = true) l = [job].
Proof.
  induction l as [|a l IH]; intros Hnd Hin.
  - by apply elem_of_nil in Hin.
  - rewrite fmap_cons in Hnd. apply NoDup_cons in Hnd as [Hfresh Hnd].
    destruct (decide (deliveryTag a = deliveryTag job)) as [Heq|Hne].
    + assert (job = a) as ->.
      { apply elem_of_cons in Hin as [->|Hin]; [done|].
        exfalso. apply Hfresh. rewrite Heq. by apply list_elem_of_fmap_2. }
      rewrite filter_cons_True by (by apply settles_one).
      f_equal. apply elem_of_nil_inv.
      intros d [Hd Hdl]%list_elem_of_filter.
      apply Hfresh. apply settles_one in Hd. rewrite <- Hd.
      by apply list_elem_of_fmap_2.
    + rewrite filter_cons_False by (by rewrite settles_one).
      apply IH; [done|].
      apply elem_of_cons in Hin as [->|Hin]; done.
Qed.

Lemma unsettled_others (l : list Delivery) job d :
  NoDup (deliveryTag <$> l) → job ∈ l →
  d ∈ filter (λ d, Channel.settles job false d = false) l ↔ d ∈ l ∧ d ≠ job.
Proof.
  intros Hnd Hjob. rewrite list_elem_of_filter. split.
  - intros [Hd Hin]. split; [done|]. intros ->.
    unfold Channel.settles in Hd. by rewrite Z.eqb_refl in Hd.
  - intros [Hin Hne]. split; [|done].
    apply not_true_is_false. rewrite settles_one. intros Htag.
    apply Hne. by eapply tag_identifies.
Qed.

Lemma nack_one_requeue b job :
  NoDup (deliveryTag <$> unacked b) → job ∈ unacked b →
  Channel.nack job false true b
  = Resolved (tt, with_queues (alter (requeue (body job)) (origin job))
                    (with_unacked
                       (filter (λ d, Channel.settles job false d = false)) b)).
Proof.
  intros Hnd Hin. unfold Channel.nack. cbv zeta. by rewrite settled_alone.
Qed.

Lemma ack_one b job :
  NoDup (deliveryTag <$> unacked b) → job ∈ unacked b →
  Channel.ack job None b
  = Resolved (tt, with_unacked
                    (filter (λ d, Channel.settles job false d = false)) b).
Proof.
  intros Hnd Hin. reflexivity.
Qed.

(** C4. For every delivered message [job] that is outstanding on the
    channel, the [nackMsg] capability of either consuming role is
    [nack(job, false, true)]: it settles that one delivery and no other
    (every other outstanding delivery, older ones included, stays
    outstanding), and puts its message back at the head of the queue it
    came from; no other queue is touched and none is declared, so no delay
    queue is involved. [ackMsg] settles the same one delivery and puts
    nothing back on any queue. *)
Theorem nack_requeues_ack_removes getRetrySequence TIMEOUT
    queueName senderQueue delivered job b :
  let sender :=
    handed (connectSenderToQueue getRetrySequence TIMEOUT queueName (λ a, a)) delivered in
  let worker :=
    handed (connectWorkerToQueue getRetrySequence queueName senderQueue (λ a, a)) delivered in
  NoDup (deliveryTag <$> unacked b) →
  job ∈ unacked b →
  nackMsg sender job = Channel.nack job false true
  ∧ nackMsg worker job = Channel.nack job false true
  ∧ ackMsg worker job = ackMsg sender job
  ∧ (∃ b',
       nackMsg sender job b = Resolved (tt, b')
       ∧ (∀ d, d ∈ unacked b' ↔ d ∈ unacked b ∧ d ≠ job)
       ∧ queues b' = alter (requeue (body job)) (origin job) (queues b)
       ∧ (∀ st, queues b !! origin job = Some st →
                pending b' (origin job) = body job :: messages st)
       ∧ (∀ q, q ≠ origin job → queues b' !! q = queues b !! q)
       ∧ dom (queues b') = dom (queues b))
  ∧ (∃ b',
       ackMsg sender job b = Resolved (tt, b')
       ∧ (∀ d, d ∈ unacked b' ↔ d ∈ unacked b ∧ d ≠ job)
       ∧ queues b' = queues b).
Proof.
  intros sender worker Hnd Hin.
  split; [reflexivity|]. split; [reflexivity|]. split; [reflexivity|].
  split.
  - eexists. split; [by apply nack_one_requeue|]. simpl.
    split; [intros d; by apply unsettled_others|].
    split; [reflexivity|].
    split.
    { intros st Hst. unfold pending. simpl.
      by rewrite lookup_alter_eq, Hst. }
    split; [intros q Hq; by rewrite lookup_alter_ne|].
    apply dom_alter_L.
  - eexists. split; [by apply ack_one|]. simpl.
    split; [intros d; by apply unsettled_others|reflexivity].
Qed.

Lemma nack_requeues_ack_removes_witness :
  NoDup (deliveryTag <$> unacked busyBroker)
  ∧ laterJob ∈ unacked busyBroker
  ∧ ∃ b',
      nackMsg
        (handed (connectSenderToQueue paymentsBackoff 300000 "payments" (λ a, a)) laterJob)
        laterJob busyBroker
      = Resolved (tt, b')
      ∧ (∀ d, d ∈ unacked b' ↔ d ∈ unacked busyBroker ∧ d ≠ laterJob)
      ∧ pending b' "payments" = [body laterJob].
Proof.
  assert (NoDup (deliveryTag <$> unacked busyBroker)) as Hnd
    by (apply (bool_decide_unpack _); exact I).
  assert (laterJob ∈ unacked busyBroker) as Hin
    by (apply elem_of_cons; right; apply elem_of_cons; by left).
  split; [exact Hnd|]. split; [exact Hin|].
  destruct (nack_requeues_ack_removes paymentsBackoff 300000 "payments" "results"
              laterJob laterJob busyBroker Hnd Hin)
    as (_ & _ & _ & (b' & Hrun & Hleft & _ & Hhead & _) & _).
  exists b'. split; [exact Hrun|]. split; [exact Hleft|].
  apply (Hhead (mkQueueState durableQueue [])). reflexivity.
Defined.

(** ** Channel setup of the three roles *)

Lemma promiseAll_step {A} (p : Chan A) rest b x b1 xs b2 :
  p b = Resolved (x, b1) →
  promiseAll rest b1 = Resolved (xs, b2) →
  promiseAll (p :: rest) b = Resolved (x :: xs, b2).
Proof.
  intros Hp Hrest. cbn [promiseAll].
  erewrite await_resolved by exact Hp.
  by erewrite await_resolved by exact Hrest.
Qed.

Lemma promiseAll_first_refusal {A} (p : Chan A) rest b e :
  p b = Rejected e → promiseAll (p :: rest) b = Rejected e.
Proof. intros Hp. cbn [promiseAll]. by erewrite await_rejected by exact Hp. Qed.

Lemma bindQueue_bound b q x :
  is_Some (queues b !! q) → is_Some (exchanges b !! x) →
  Channel.bindQueue q x b = Resolved (tt, with_bindings (union {[ (q, x) ]}) b).
Proof. intros [st Hq] [d Hx]. unfold Channel.bindQueue. by rewrite Hq, Hx. Qed.

Lemma consume_registered b q :
  is_Some (queues b !! q) →
  Channel.consume q b = Resolved (tt, with_consumers (cons q) b).
Proof. intros [st Hq]. unfold Channel.consume. by rewrite Hq. Qed.

Lemma declared_twice (qs : gmap string QueueState) q q' st st' :
  is_Some (<[q' := st']> (<[q := st]> qs) !! q).
Proof.
  destruct (decide (q' = q)) as [->|Hne].
  - rewrite lookup_insert_eq. by eexists.
  - rewrite lookup_insert_ne, lookup_insert_eq by done. by eexists.
Qed.

Lemma queue_accepts_after_declare b q q' o ms :
  queue_accepts b q' o →
  queue_accepts (with_queues <[q := mkQueueState o ms]> b) q' o.
Proof.
  unfold queue_accepts. simpl. intros Hacc.
  destruct (decide (q = q')) as [->|Hne].
  - by rewrite lookup_insert_eq.
  - by rewrite lookup_insert_ne.
Qed.

Lemma pending_sent b q m :
  is_Some (queues b !! q) →
  pending (with_queues (alter (enqueue m) q) b) q = pending b q ++ [m].
Proof.
  intros [st Hst]. unfold pending. simpl.
  by rewrite lookup_alter_eq, Hst.
Qed.

Lemma senderSetup_run {R} getRetrySequence TIMEOUT queueName (cb : HandlerArgs → R) b :
  exchange_accepts b (queueName +:+ "-retry") (mkExchangeDecl "fanout" true) →
  queue_accepts b queueName durableQueue →
  setup (connectSenderToQueue getRetrySequence TIMEOUT queueName cb) b
  = Resolved ([tt; tt; tt; tt; tt], afterSenderSetup queueName b).
Proof.
  intros Hx Hq. unfold connectSenderToQueue. cbn [setup].
  eapply promiseAll_step; [by apply assertExchange_accepted|].
  eapply promiseAll_step; [by apply assertQueue_accepted|].
  eapply promiseAll_step.
  { apply bindQueue_bound; simpl; rewrite lookup_insert_eq; by eexists. }
  eapply promiseAll_step; [reflexivity|].
  eapply promiseAll_step; [|reflexivity].
  apply consume_registered. simpl. rewrite lookup_insert_eq. by eexists.
Qed.

Lemma workerSetup_run {R} getRetrySequence queueName senderQueue
    (cb : HandlerArgs → R) b :
  exchange_accepts b (queueName +:+ "-retry") (mkExchangeDecl "fanout" true) →
  queue_accepts b queueName durableQueue →
  queue_accepts b senderQueue durableQueue →
  setup (connectWorkerToQueue getRetrySequence queueName senderQueue cb) b
  = Resolved ([tt; tt; tt; tt; tt; tt], afterWorkerSetup queueName senderQueue b).
Proof.
  intros Hx Hq Hs. unfold connectWorkerToQueue. cbn [setup].
  eapply promiseAll_step; [by apply assertExchange_accepted|].
  eapply promiseAll_step; [by apply assertQueue_accepted|].
  eapply promiseAll_step.
  { apply assertQueue_accepted. by apply queue_accepts_after_declare. }
  eapply promiseAll_step.
  { apply bindQueue_bound; simpl; [apply declared_twice|].
    rewrite lookup_insert_eq. by eexists. }
  eapply promiseAll_step; [reflexivity|].
  eapply promiseAll_step; [|reflexivity].
  apply consume_registered. simpl. apply declared_twice.
Qed.

Lemma senderSetup_topology queueName b :
  consumerTopology queueName (afterSenderSetup queueName b).
Proof.
  unfold consumerTopology, afterSenderSetup. simpl.
  rewrite !lookup_insert_eq. simpl.
  repeat split; [set_solver | by apply elem_of_cons; left].
Qed.

Lemma workerSetup_topology queueName senderQueue b :
  consumerTopology queueName (afterWorkerSetup queueName senderQueue b)
  ∧ qopts <$> queues (afterWorkerSetup queueName senderQueue b) !! senderQueue
    = Some durableQueue.
Proof.
  unfold consumerTopology, afterWorkerSetup. simpl.
  rewrite !lookup_insert_eq. simpl.
  split; [|done].
  split; [done|]. split.
  { destruct (decide (senderQueue = queueName)) as [->|Hne].
    - by rewrite lookup_insert_eq.
    - by rewrite lookup_insert_ne, lookup_insert_eq. }
  repeat split; [set_solver | by apply elem_of_cons; left].
Qed.

(** C7. For every queue name, on a broker that accepts the declarations,
    the sender's setup resolves having declared the durable fanout exchange
    [queueName-retry] and the durable work queue, bound the queue to the
    exchange, set prefetch to 1 and started consuming. The worker's setup
    does the same and also declares the durable queue [senderQueue]; its
    handler object carries [sendToSenderQueue], which publishes a
    persistent message to [senderQueue], and no resend capability, while
    the sender's carries the resend capability and no [sendToSenderQueue]. *)
Theorem consumer_role_setups getRetrySequence TIMEOUT queueName senderQueue job b :
  let sender := connectSenderToQueue getRetrySequence TIMEOUT queueName (λ a, a) in
  let worker := connectWorkerToQueue getRetrySequence queueName senderQueue (λ a, a) in
  exchange_accepts b (queueName +:+ "-retry") (mkExchangeDecl "fanout" true) →
  queue_accepts b queueName (mkQueueOptions true None None None) →
  (∃ replies b',
     setup sender b = Resolved (replies, b')
     ∧ exchanges b' !! (queueName +:+ "-retry") = Some (mkExchangeDecl "fanout" true)
     ∧ qopts <$> queues b' !! queueName = Some (mkQueueOptions true None None None)
     ∧ (queueName, queueName +:+ "-retry") ∈ bindings b'
     ∧ prefetchCount b' = 1
     ∧ queueName ∈ consumers b'
     ∧ sendToSenderQueue (handed sender job) = None
     ∧ is_Some (scheduleTransactionResend (handed sender job)))
  ∧ (queue_accepts b senderQueue (mkQueueOptions true None None None) →
     ∃ replies b' forward,
       setup worker b = Resolved (replies, b')
       ∧ exchanges b' !! (queueName +:+ "-retry") = Some (mkExchangeDecl "fanout" true)
       ∧ qopts <$> queues b' !! queueName = Some (mkQueueOptions true None None None)
       ∧ (queueName, queueName +:+ "-retry") ∈ bindings b'
       ∧ prefetchCount b' = 1
       ∧ queueName ∈ consumers b'
       ∧ qopts <$> queues b' !! senderQueue = Some (mkQueueOptions true None None None)
       ∧ sendToSenderQueue (handed worker job) = Some forward
       ∧ (∀ data, ∃ b'',
            forward data b' = Resolved (tt, b'')
            ∧ pending b'' senderQueue
              = pending b' senderQueue ++ [mkMessage data (mkPublishOptions true None)])
       ∧ scheduleTransactionResend (handed worker job) = None).
Proof.
  intros sender worker Hx Hq. split.
  - eexists _, _. split; [by apply senderSetup_run|].
    destruct (senderSetup_topology queueName b) as (? & ? & ? & ? & ?).
    repeat (split; [done|]). by eexists.
  - intros Hs. eexists _, _, _. split; [by apply workerSetup_run|].
    destruct (workerSetup_topology queueName senderQueue b)
      as ((? & ? & ? & ? & ?) & Hdeclared).
    repeat (split; [done|]).
    split; [|reflexivity].
    intros data. eexists. split; [reflexivity|].
    apply pending_sent.
    destruct (queues (afterWorkerSetup queueName senderQueue b) !! senderQueue);
      [by eexists | discriminate Hdeclared].
Qed.

Lemma consumer_role_setups_witness :
  exchange_accepts emptyBroker "jobs-retry" (mkExchangeDecl "fanout" true)
  ∧ queue_accepts emptyBroker "jobs" (mkQueueOptions true None None None)
  ∧ queue_accepts emptyBroker "results" (mkQueueOptions true None None None)
  ∧ ∃ replies b' forward,
      setup (connectWorkerToQueue paymentsBackoff "jobs" "results" (λ a, a)) emptyBroker
      = Resolved (replies, b')
      ∧ exchanges b' !! "jobs-retry" = Some (mkExchangeDecl "fanout" true)
      ∧ qopts <$> queues b' !! "jobs" = Some (mkQueueOptions true None None None)
      ∧ ("jobs", "jobs-retry") ∈ bindings b'
      ∧ prefetchCount b' = 1
      ∧ "jobs" ∈ consumers b'
      ∧ qopts <$> queues b' !! "results" = Some (mkQueueOptions true None None None)
      ∧ sendToSenderQueue
          (handed (connectWorkerToQueue paymentsBackoff "jobs" "results" (λ a, a)) sampleJob)
        = Some forward
      ∧ (∀ data, ∃ b'',
           forward data b' = Resolved (tt, b'')
           ∧ pending b'' "results"
             = pending b' "results" ++ [mkMessage data (mkPublishOptions true None)])
      ∧ scheduleTransactionResend
          (handed (connectWorkerToQueue paymentsBackoff "jobs" "results" (λ a, a)) sampleJob)
        = None.
Proof.
  split; [exact I|]. split; [exact I|]. split; [exact I|].
  exact (proj2 (consumer_role_setups paymentsBackoff 300000 "jobs" "results"
                  sampleJob emptyBroker I I) I).
Defined.

Lemma watcherSetup_run {R} queueName workerQueue (cb : WatcherArgs → R) b :
  queue_accepts b queueName durableQueue →
  (∀ w, workerQueue = Some w → queue_accepts b w durableQueue) →
  ∃ replies,
    setup (connectWatcherToQueue queueName workerQueue cb) b
    = Resolved (replies, afterWatcherSetup queueName workerQueue b).
Proof.
  intros Hq Hw. unfold connectWatcherToQueue, afterWatcherSetup. cbn [setup].
  destruct (truthy workerQueue) eqn:Hsupplied.
  - destruct workerQueue as [w|]; [|discriminate Hsupplied].
    eexists. cbn [map default from_option].
    eapply promiseAll_step; [by apply assertQueue_accepted|].
    eapply promiseAll_step; [|reflexivity].
    apply assertQueue_accepted. apply queue_accepts_after_declare. by apply Hw.
  - eexists. cbn [map].
    eapply promiseAll_step; [by apply assertQueue_accepted|reflexivity].
Qed.

(** C8. For every queue name, on a broker that accepts the declarations,
    the watcher's setup resolves having declared the target queue durable
    and, when a worker queue is supplied (a non-empty name), that queue too;
    it registers no consumer and takes no delivery. The callback receives
    [sendToQueue], which appends [data] as a persistent message to the
    target queue, and [sendToWorker], which does so for the worker queue,
    only when one was supplied; without one [sendToWorker] is undefined and
    the target queue is the only declaration. *)
Theorem watcher_declares_and_sends queueName workerQueue b :
  let watcher := connectWatcherToQueue queueName workerQueue (λ a, a) in
  queue_accepts b queueName (mkQueueOptions true None None None) →
  (∀ w, workerQueue = Some w →
        queue_accepts b w (mkQueueOptions true None None None)) →
  ∃ replies b',
    setup watcher b = Resolved (replies, b')
    ∧ qopts <$> queues b' !! queueName = Some (mkQueueOptions true None None None)
    ∧ consumers b' = consumers b
    ∧ unacked b' = unacked b
    ∧ exchanges b' = exchanges b
    ∧ bindings b' = bindings b
    ∧ (∀ data, ∃ b'',
         sendToQueue (handed watcher) data b' = Resolved (tt, b'')
         ∧ pending b'' queueName
           = pending b' queueName ++ [mkMessage data (mkPublishOptions true None)]
         ∧ consumers b'' = consumers b
         ∧ unacked b'' = unacked b)
    ∧ (∀ w, workerQueue = Some w → w ≠ "" →
         qopts <$> queues b' !! w = Some (mkQueueOptions true None None None)
         ∧ ∃ toWorker,
             sendToWorker (handed watcher) = Some toWorker
             ∧ ∀ data, ∃ b'',
                 toWorker data b' = Resolved (tt, b'')
                 ∧ pending b'' w
                   = pending b' w ++ [mkMessage data (mkPublishOptions true None)]
                 ∧ consumers b'' = consumers b
                 ∧ unacked b'' = unacked b)
    ∧ (truthy workerQueue = false →
         sendToWorker (handed watcher) = None
         ∧ dom (queues b') = {[ queueName ]} ∪ dom (queues b)).
Proof.
  intros watcher Hq Hw.
  destruct (watcherSetup_run queueName workerQueue (λ a, a) b Hq Hw) as [replies Hrun].
  exists replies, (afterWatcherSetup queueName workerQueue b).
  split; [exact Hrun|].
  assert (is_Some (queues (afterWatcherSetup queueName workerQueue b) !! queueName)
          ∧ qopts <$> queues (afterWatcherSetup queueName workerQueue b) !! queueName
            = Some durableQueue) as [Htarget Hdurable].
  { unfold afterWatcherSetup, declareDurable.
    destruct (truthy workerQueue); simpl.
    - destruct (decide (default "" workerQueue = queueName)) as [->|Hne].
      + rewrite lookup_insert_eq. split; [by eexists|done].
      + rewrite lookup_insert_ne, lookup_insert_eq by done. split; [by eexists|done].
    - rewrite lookup_insert_eq. split; [by eexists|done]. }
  split; [exact Hdurable|].
  do 4 (split; [watcher_frame|]).
  split.
  { intros data. eexists. split; [reflexivity|].
    split; [by apply pending_sent|watcher_frame]. }
  split.
  - intros w -> Hnonempty.
    assert (truthy (Some w) = true) as Hsupplied.
    { unfold truthy. apply String.eqb_neq in Hnonempty. by rewrite Hnonempty. }
    unfold watcher, connectWatcherToQueue, afterWatcherSetup, declareDurable.
    rewrite Hsupplied. cbn [handed sendToWorker default from_option].
    assert (∀ qs : gmap string QueueState, ∀ st,
              is_Some (<[w := st]> qs !! w)) as Hthere
      by (intros; rewrite lookup_insert_eq; by eexists).
    split; [simpl; by rewrite lookup_insert_eq|].
    eexists. split; [reflexivity|].
    intros data. eexists. split; [reflexivity|].
    split; [apply pending_sent; simpl; apply Hthere|done].
  - intros Hnone.
    unfold watcher, connectWatcherToQueue, afterWatcherSetup, declareDurable.
    rewrite Hnone. split; [reflexivity|]. simpl. apply dom_insert_L.
Qed.

Lemma watcher_declares_and_sends_witness :
  queue_accepts emptyBroker "signatures" (mkQueueOptions true None None None)
  ∧ queue_accepts emptyBroker "worker" (mkQueueOptions true None None None)
  ∧ ∃ replies b' toWorker,
      setup (connectWatcherToQueue "signatures" (Some "worker") (λ a, a)) emptyBroker
      = Resolved (replies, b')
      ∧ qopts <$> queues b' !! "signatures" = Some (mkQueueOptions true None None None)
      ∧ qopts <$> queues b' !! "worker" = Some (mkQueueOptions true None None None)
      ∧ consumers b' = []
      ∧ sendToWorker (handed (connectWatcherToQueue "signatures" (Some "worker") (λ a, a)))
        = Some toWorker
      ∧ ∃ b'',
          toWorker sampleTx b' = Resolved (tt, b'')
          ∧ pending b'' "worker"
            = pending b' "worker" ++ [mkMessage sampleTx (mkPublishOptions true None)].
Proof.
  split; [exact I|]. split; [exact I|].
  destruct (watcher_declares_and_sends "signatures" (Some "worker") emptyBroker I
              (λ _ _, I))
    as (replies & b' & Hrun & Htarget & Hnone & _ & _ & _ & _ & Hworker & _).
  destruct (Hworker "worker" eq_refl) as (Hdeclared & toWorker & Hcap & Hsend);
    [discriminate|].
  destruct (Hsend sampleTx) as (b'' & Hsent & Hpending & _).
  exists replies, b', toWorker.
  split; [exact Hrun|]. split; [exact Htarget|]. split; [exact Hdeclared|].
  split; [exact Hnone|]. split; [exact Hcap|].
  exists b''. split; [exact Hsent | exact Hpending].
Defined.

(** ** Delivery under prefetch 1 *)

(** With prefetch 1, an outstanding delivery holds back every further one. *)
Lemma deliver_waits_for_settlement q b :
  prefetchCount b = 1 → unacked b ≠ [] → deliver q b = None.
Proof.
  intros Hone Hbusy. unfold deliver.
  rewrite decide_False; [done|].
  intros [_ [Hzero|Hroom]]; [lia|].
  destruct (unacked b); [done|]. simpl in Hroom. lia.
Qed.

(** A message nacked by the client is the next one its consumer gets. *)
Lemma nack_then_redelivered b job st :
  unacked b = [job] →
  prefetchCount b = 1 →
  origin job ∈ consumers b →
  queues b !! origin job = Some st →
  ∃ b1 again b2,
    Channel.nack job false true b = Resolved (tt, b1)
    ∧ deliver (origin job) b1 = Some (again, b2)
    ∧ body again = body job
    ∧ unacked b2 = [again].
Proof.
  intros Hone Hprefetch Hconsumed Hst.
  assert (NoDup (deliveryTag <$> unacked b)) as Hnd.
  { rewrite Hone. apply NoDup_singleton. }
  assert (job ∈ unacked b) as Hin by (rewrite Hone; by apply list_elem_of_singleton).
  eexists _, _, _. split; [by apply nack_one_requeue|].
  unfold deliver. simpl. rewrite Hone, Hprefetch.
  rewrite filter_cons_False, filter_nil
    by (unfold Channel.settles; by rewrite Z.eqb_refl).
  rewrite decide_True by (split; [done | right; simpl; lia]).
  rewrite lookup_alter_eq, Hst. destruct st as [o ms]. simpl. done.
Qed.

(** * Further properties of the client *)

(** ** Names of the delay queues *)

Lemma append_empty_r (s : string) : s +:+ "" = s.
Proof.
  induction s as [|a s IH]; [done|].
  change (String a (s +:+ "") = String a s). by f_equal.
Qed.

Lemma retry_name_keyed_by_delay queueName (d1 d2 : Z) :
  queueName +:+ "-retry-" +:+ pretty d1 = queueName +:+ "-retry-" +:+ pretty d2 →
  d1 = d2.
Proof.
  intros Hname%String.app_inj. apply (String.app_inj "-retry-") in Hname.
  by apply (inj pretty).
Qed.

Lemma retry_name_not_work_queue queueName suffix :
  queueName +:+ "-retry-" +:+ suffix ≠ queueName.
Proof.
  intros Hname.
  assert (queueName +:+ "-retry-" +:+ suffix = queueName +:+ "") as Hcancel
    by (by rewrite append_empty_r).
  apply String.app_inj in Hcancel. discriminate Hcancel.
Qed.

Lemma retry_name_not_resend queueName suffix :
  queueName +:+ "-retry-" +:+ suffix ≠ queueName +:+ "-check-tx-status".
Proof. intros Hname%String.app_inj. discriminate Hname. Qed.

Lemma resend_name_not_work_queue queueName :
  queueName +:+ "-check-tx-status" ≠ queueName.
Proof.
  intros Hname.
  assert (queueName +:+ "-check-tx-status" = queueName +:+ "") as Hcancel
    by (by rewrite append_empty_r).
  apply String.app_inj in Hcancel. discriminate Hcancel.
Qed.

Lemma pending_insert_ne b q q' st :
  q ≠ q' → pending (with_queues <[q := st]> b) q' = pending b q'.
Proof. intros Hne. unfold pending. simpl. by rewrite lookup_insert_ne. Qed.

Lemma queue_accepts_insert_ne b q q' st o :
  q ≠ q' → queue_accepts b q' o → queue_accepts (with_queues <[q := st]> b) q' o.
Proof. intros Hne. unfold queue_accepts. simpl. by rewrite lookup_insert_ne. Qed.

(** ** What a retry leaves alone *)

(** X1. A retry never puts its message on the work queue itself and never
    settles anything: when [generateRetry] resolves, the work queue holds
    what it held, the outstanding deliveries are the same (the retried
    message still waits for its ack), and exchanges, bindings, consumers
    and prefetch are untouched. *)
Theorem retry_bypasses_work_queue getRetrySequence data n queueName dlx b :
  let delay := getRetrySequence (n + 1) * 1000 in
  let retryQueue := queueName +:+ "-retry-" +:+ pretty delay in
  queue_accepts b retryQueue
    (mkQueueOptions true (Some dlx) (Some delay) (Some (delay * 10))) →
  ∃ b',
    generateRetry getRetrySequence data n queueName dlx b = Resolved (tt, b')
    ∧ retryQueue ≠ queueName
    ∧ queues b' !! queueName = queues b !! queueName
    ∧ unacked b' = unacked b
    ∧ exchanges b' = exchanges b
    ∧ bindings b' = bindings b
    ∧ consumers b' = consumers b
    ∧ prefetchCount b' = prefetchCount b.
Proof.
  intros delay retryQueue Hacc.
  eexists. split; [by apply generateRetry_run|].
  split; [apply retry_name_not_work_queue|].
  split; [|done].
  simpl. rewrite lookup_insert_ne; [done|]. apply retry_name_not_work_queue.
Qed.

Lemma retry_bypasses_work_queue_witness :
  ∃ b',
    generateRetry paymentsBackoff sampleTx 2 "payments" "payments-retry" busyBroker
    = Resolved (tt, b')
    ∧ "payments-retry-60000" ≠ "payments"
    ∧ queues b' !! "payments" = queues busyBroker !! "payments"
    ∧ unacked b' = [sampleJob; laterJob]
    ∧ exchanges b' = exchanges busyBroker
    ∧ bindings b' = bindings busyBroker
    ∧ consumers b' = consumers busyBroker
    ∧ prefetchCount b' = prefetchCount busyBroker.
Proof.
  apply (retry_bypasses_work_queue paymentsBackoff sampleTx 2
           "payments" "payments-retry" busyBroker).
  apply (bool_decide_unpack _). exact I.
Defined.

(** X2. Retries on one work queue whose delays differ never share a retry
    queue: the names differ, and after both retries each queue holds
    exactly the message scheduled with its own delay, under its own TTL.
    The counts are taken from 0 up to [MAX_SAFE_INTEGER], where the count
    in the header is the count plus one. *)
Theorem different_delays_use_different_queues getRetrySequence
    data1 n1 data2 n2 queueName dlx b :
  let delay1 := getRetrySequence (n1 + 1) * 1000 in
  let delay2 := getRetrySequence (n2 + 1) * 1000 in
  let queue1 := queueName +:+ "-retry-" +:+ pretty delay1 in
  let queue2 := queueName +:+ "-retry-" +:+ pretty delay2 in
  0 ≤ n1 ≤ MAX_SAFE_INTEGER →
  0 ≤ n2 ≤ MAX_SAFE_INTEGER →
  delay1 ≠ delay2 →
  queue_accepts b queue1
    (mkQueueOptions true (Some dlx) (Some delay1) (Some (delay1 * 10))) →
  queue_accepts b queue2
    (mkQueueOptions true (Some dlx) (Some delay2) (Some (delay2 * 10))) →
  queue1 ≠ queue2
  ∧ ∃ b1 b2,
      generateRetry getRetrySequence data1 n1 queueName dlx b = Resolved (tt, b1)
      ∧ generateRetry getRetrySequence data2 n2 queueName dlx b1 = Resolved (tt, b2)
      ∧ pending b2 queue1
        = pending b queue1
          ++ [mkMessage data1 (mkPublishOptions true (Some [("x-retries", JNum (n1 + 1))]))]
      ∧ pending b2 queue2
        = pending b queue2
          ++ [mkMessage data2 (mkPublishOptions true (Some [("x-retries", JNum (n2 + 1))]))]
      ∧ messageTtl ∘ qopts <$> queues b2 !! queue1 = Some (Some delay1)
      ∧ messageTtl ∘ qopts <$> queues b2 !! queue2 = Some (Some delay2).
Proof.
  intros delay1 delay2 queue1 queue2 Hsafe1 Hsafe2 Hdelay Hacc1 Hacc2.
  assert (queue1 ≠ queue2) as Hname
    by (intros Heq; by apply Hdelay, (retry_name_keyed_by_delay queueName)).
  split; [exact Hname|].
  eexists _, _. split; [by apply generateRetry_run|].
  split.
  { apply generateRetry_run. by apply queue_accepts_insert_ne. }
  fold delay1 delay2 queue1 queue2.
  split.
  { rewrite pending_insert_ne by done. by rewrite pending_insert. }
  split.
  { rewrite pending_insert. simpl. by rewrite pending_insert_ne. }
  simpl. rewrite lookup_insert_ne, !lookup_insert_eq by done. done.
Qed.

Lemma different_delays_use_different_queues_witness :
  ∃ b1 b2,
    generateRetry paymentsBackoff sampleTx 0 "payments" "payments-retry" emptyBroker
    = Resolved (tt, b1)
    ∧ generateRetry paymentsBackoff (JStr "later") 1 "payments" "payments-retry" b1
      = Resolved (tt, b2)
    ∧ pending b2 "payments-retry-5000"
      = [mkMessage sampleTx (mkPublishOptions true (Some [("x-retries", JNum 1)]))]
    ∧ pending b2 "payments-retry-15000"
      = [mkMessage (JStr "later") (mkPublishOptions true (Some [("x-retries", JNum 2)]))]
    ∧ messageTtl ∘ qopts <$> queues b2 !! "payments-retry-5000" = Some (Some 5000)
    ∧ messageTtl ∘ qopts <$> queues b2 !! "payments-retry-15000" = Some (Some 15000).
Proof.
  apply (different_delays_use_different_queues paymentsBackoff sampleTx 0 (JStr "later") 1
           "payments" "payments-retry" emptyBroker);
    [unfold MAX_SAFE_INTEGER; lia | unfold MAX_SAFE_INTEGER; lia
     | discriminate | exact I | exact I].
Defined.

(** ** Retry and resend side by side *)

Lemma with_queues_insert_swap b q1 q2 st1 st2 :
  q1 ≠ q2 →
  with_queues <[q2 := st2]> (with_queues <[q1 := st1]> b)
  = with_queues <[q1 := st1]> (with_queues <[q2 := st2]> b).
Proof.
  intros Hne. destruct b. unfold with_queues. simpl. f_equal.
  by apply insert_insert_ne.
Qed.

(** X3. A sender's retry and its transaction resend use different queues
    and do not get in each other's way: from a broker that accepts both
    declarations, scheduling the retry and then the resend leaves the same
    broker as scheduling them the other way round, each message waiting in
    its own queue. The retry count is taken from 0 up to
    [MAX_SAFE_INTEGER], where the count in the header is the count plus
    one. *)
Theorem retry_and_resend_commute getRetrySequence TIMEOUT
    data1 n data2 queueName delivered b :
  let sender :=
    handed (connectSenderToQueue getRetrySequence TIMEOUT queueName (λ a, a)) delivered in
  let delay := getRetrySequence (n + 1) * 1000 in
  let retryQueue := queueName +:+ "-retry-" +:+ pretty delay in
  let resendQueue := queueName +:+ "-check-tx-status" in
  0 ≤ n ≤ MAX_SAFE_INTEGER →
  queue_accepts b retryQueue
    (mkQueueOptions true (Some (queueName +:+ "-retry")) (Some delay) (Some (delay * 10))) →
  queue_accepts b resendQueue
    (mkQueueOptions true (Some (queueName +:+ "-retry")) (Some TIMEOUT) (Some (TIMEOUT * 10))) →
  ∃ resend b1 b2 final,
    scheduleTransactionResend sender = Some resend
    ∧ scheduleForRetry sender data1 (Some n) b = Resolved (tt, b1)
    ∧ resend data2 b1 = Resolved (tt, final)
    ∧ resend data2 b = Resolved (tt, b2)
    ∧ scheduleForRetry sender data1 (Some n) b2 = Resolved (tt, final)
    ∧ retryQueue ≠ resendQueue
    ∧ pending final retryQueue
      = pending b retryQueue
        ++ [mkMessage data1 (mkPublishOptions true (Some [("x-retries", JNum (n + 1))]))]
    ∧ pending final resendQueue
      = pending b resendQueue ++ [mkMessage data2 (mkPublishOptions true None)].
Proof.
  intros sender delay retryQueue resendQueue Hsafe Hretry Hresend.
  assert (retryQueue ≠ resendQueue) as Hne by apply retry_name_not_resend.
  eexists _, _, _, _. split; [reflexivity|].
  split; [by apply generateRetry_run|].
  split.
  { apply generateTransactionResend_run. by apply queue_accepts_insert_ne. }
  split; [by apply generateTransactionResend_run|].
  fold delay retryQueue resendQueue.
  split.
  { unfold sender. cbn [handed connectSenderToQueue scheduleForRetry default from_option].
    rewrite generateRetry_run by (by apply queue_accepts_insert_ne).
    fold delay retryQueue.
    rewrite !pending_insert_ne by done.
    by rewrite with_queues_insert_swap. }
  split; [exact Hne|].
  split.
  - rewrite pending_insert_ne by done. by rewrite pending_insert.
  - rewrite pending_insert. simpl. by rewrite pending_insert_ne.
Qed.

Lemma retry_and_resend_commute_witness :
  ∃ resend b1 b2 final,
    scheduleTransactionResend
      (handed (connectSenderToQueue paymentsBackoff 300000 "payments" (λ a, a)) sampleJob)
    = Some resend
    ∧ scheduleForRetry
        (handed (connectSenderToQueue paymentsBackoff 300000 "payments" (λ a, a)) sampleJob)
        sampleTx (Some 2) busyBroker
      = Resolved (tt, b1)
    ∧ resend (JStr "later") b1 = Resolved (tt, final)
    ∧ resend (JStr "later") busyBroker = Resolved (tt, b2)
    ∧ scheduleForRetry
        (handed (connectSenderToQueue paymentsBackoff 300000 "payments" (λ a, a)) sampleJob)
        sampleTx (Some 2) b2
      = Resolved (tt, final)
    ∧ "payments-retry-60000" ≠ "payments-check-tx-status"
    ∧ pending final "payments-retry-60000"
      = [mkMessage sampleTx (mkPublishOptions true (Some [("x-retries", JNum 3)]))]
    ∧ pending final "payments-check-tx-status"
      = [mkMessage (JStr "later") (mkPublishOptions true None)].
Proof.
  apply (retry_and_resend_commute paymentsBackoff 300000 sampleTx 2 (JStr "later")
           "payments" sampleJob busyBroker);
    [unfold MAX_SAFE_INTEGER; lia | ..]; apply (bool_decide_unpack _); exact I.
Defined.

(** ** Retrying is not settling *)

(** X9. Scheduling a retry does not acknowledge the message being retried:
    after a sender's [scheduleForRetry] the delivery is still outstanding,
    and under prefetch 1 the broker hands out nothing more on any queue.
    The [ackMsg] that follows settles it, and the copy waits in the retry
    queue while the work queue is as it was; if the retried message was the
    only outstanding one, the next message of the work queue is then
    delivered. The retry count is taken from 0 up to [MAX_SAFE_INTEGER],
    where the count in the header is the count plus one. *)
Theorem retry_then_ack getRetrySequence TIMEOUT data n queueName delivered job b :
  let sender :=
    handed (connectSenderToQueue getRetrySequence TIMEOUT queueName (λ a, a)) delivered in
  let delay := getRetrySequence (n + 1) * 1000 in
  let retryQueue := queueName +:+ "-retry-" +:+ pretty delay in
  0 ≤ n ≤ MAX_SAFE_INTEGER →
  NoDup (deliveryTag <$> unacked b) →
  job ∈ unacked b →
  queue_accepts b retryQueue
    (mkQueueOptions true (Some (queueName +:+ "-retry")) (Some delay) (Some (delay * 10))) →
  ∃ b1 b2,
    scheduleForRetry sender data (Some n) b = Resolved (tt, b1)
    ∧ job ∈ unacked b1
    ∧ (prefetchCount b = 1 → ∀ q, deliver q b1 = None)
    ∧ ackMsg sender job b1 = Resolved (tt, b2)
    ∧ (job ∉ unacked b2)
    ∧ pending b2 retryQueue
      = pending b retryQueue
        ++ [mkMessage data (mkPublishOptions true (Some [("x-retries", JNum (n + 1))]))]
    ∧ queues b2 !! queueName = queues b !! queueName
    ∧ (prefetchCount b = 1 → unacked b = [job] → queueName ∈ consumers b →
       ∀ o next rest,
         queues b !! queueName = Some (mkQueueState o (next :: rest)) →
         ∃ d b3,
           deliver queueName b2 = Some (d, b3)
           ∧ body d = next
           ∧ unacked b3 = [d]).
Proof.
  intros sender delay retryQueue Hsafe Hnd Hin Hacc.
  eexists _, _. split; [by apply generateRetry_run|].
  split; [exact Hin|].
  split.
  { intros Hone q. apply deliver_waits_for_settlement; [exact Hone|].
    simpl. intros Hnone. rewrite Hnone in Hin. by apply elem_of_nil in Hin. }
  split; [by apply ack_one|].
  split.
  { simpl. intros Hstill%unsettled_others; [|done..]. by destruct Hstill. }
  split; [unfold pending; simpl; by rewrite lookup_insert_eq|].
  split.
  { simpl. rewrite lookup_insert_ne; [done|]. apply retry_name_not_work_queue. }
  intros Hone Honly Hconsumed o next rest Hwaiting.
  unfold deliver. simpl. rewrite Honly, Hone.
  rewrite filter_cons_False, filter_nil
    by (unfold Channel.settles; by rewrite Z.eqb_refl).
  rewrite decide_True by (split; [done | right; simpl; lia]).
  rewrite lookup_insert_ne by apply retry_name_not_work_queue.
  rewrite Hwaiting. by eexists _, _.
Qed.

Lemma retry_then_ack_witness :
  prefetchCount prefetchedBroker = 1
  ∧ pending prefetchedBroker "payments"
    = [mkMessage (JStr "later") (mkPublishOptions true None)]
  ∧ ∃ b1 b2,
      scheduleForRetry
        (handed (connectSenderToQueue paymentsBackoff 300000 "payments" (λ a, a)) sampleJob)
        sampleTx (Some 2) prefetchedBroker
      = Resolved (tt, b1)
      ∧ sampleJob ∈ unacked b1
      ∧ (∀ q, deliver q b1 = None)
      ∧ ackMsg
          (handed (connectSenderToQueue paymentsBackoff 300000 "payments" (λ a, a)) sampleJob)
          sampleJob b1
        = Resolved (tt, b2)
      ∧ (sampleJob ∉ unacked b2)
      ∧ pending b2 "payments-retry-60000"
        = [mkMessage sampleTx (mkPublishOptions true (Some [("x-retries", JNum 3)]))]
      ∧ queues b2 !! "payments" = queues prefetchedBroker !! "payments"
      ∧ ∃ d b3,
          deliver "payments" b2 = Some (d, b3)
          ∧ body d = mkMessage (JStr "later") (mkPublishOptions true None)
          ∧ unacked b3 = [d].
Proof.
  split; [reflexivity|]. split; [reflexivity|].
  destruct (retry_then_ack paymentsBackoff 300000 sampleTx 2 "payments"
              sampleJob sampleJob prefetchedBroker)
    as (b1 & b2 & Hretry & Hstill & Hblocked & Hack & Hsettled & Hcopy & Hwork & Hnext).
  - unfold MAX_SAFE_INTEGER. lia.
  - apply (bool_decide_unpack _). exact I.
  - apply elem_of_cons. by left.
  - apply (bool_decide_unpack _). exact I.
  - exists b1, b2. split; [exact Hretry|]. split; [exact Hstill|].
    split; [exact (Hblocked eq_refl)|]. split; [exact Hack|].
    split; [exact Hsettled|]. split; [exact Hcopy|]. split; [exact Hwork|].
    apply (Hnext eq_refl eq_refl) with (o := durableQueue) (rest := []);
      [apply elem_of_cons; by left | reflexivity].
Defined.

(** ** Running a setup again *)

Lemma pending_redeclared b q o q' :
  pending (with_queues <[q := mkQueueState o (pending b q)]> b) q' = pending b q'.
Proof.
  destruct (decide (q = q')) as [->|Hne].
  - by rewrite pending_insert.
  - by apply pending_insert_ne.
Qed.

Lemma insert_pair_again {A} (m : gmap string A) i j x y :
  <[j := y]> (<[i := x]> (<[j := y]> (<[i := x]> m))) = <[j := y]> (<[i := x]> m).
Proof.
  apply map_eq. intros k. rewrite !lookup_insert.
  by repeat case_decide.
Qed.

Lemma bound_again (bs : gset (string * string)) p :
  {[ p ]} ∪ ({[ p ]} ∪ bs) = {[ p ]} ∪ bs.
Proof. by rewrite (assoc_L (∪)), (idemp_L (∪)). Qed.

Lemma pending_afterSenderSetup queueName b q :
  pending (afterSenderSetup queueName b) q = pending b q.
Proof.
  unfold afterSenderSetup.
  exact (pending_redeclared (with_exchanges _ b) queueName durableQueue q).
Qed.

Lemma pending_afterWorkerSetup queueName senderQueue b q :
  pending (afterWorkerSetup queueName senderQueue b) q = pending b q.
Proof.
  unfold afterWorkerSetup. cbv zeta.
  set (declared := with_queues <[queueName := _]> (with_exchanges _ b)).
  transitivity (pending declared q).
  - exact (pending_redeclared declared senderQueue durableQueue q).
  - exact (pending_redeclared (with_exchanges _ b) queueName durableQueue q).
Qed.

Lemma pending_declared_work_queue b f q q' :
  pending (with_queues <[q := mkQueueState durableQueue (pending b q)]>
             (with_exchanges f b)) q'
  = pending b q'.
Proof. exact (pending_redeclared (with_exchanges f b) q durableQueue q'). Qed.

Lemma queues_afterWorkerSetup queueName senderQueue b :
  queues (afterWorkerSetup queueName senderQueue b)
  = <[senderQueue := mkQueueState durableQueue (pending b senderQueue)]>
      (<[queueName := mkQueueState durableQueue (pending b queueName)]> (queues b)).
Proof.
  unfold afterWorkerSetup. cbv zeta.
  cbn [queues with_consumers with_prefetch with_bindings with_queues with_exchanges].
  by rewrite pending_declared_work_queue.
Qed.

(** X4. A sender's setup can run again (as it does on every reconnect):
    on the broker its first run left, a second run resolves and changes no
    exchange, queue, binding or prefetch; and neither run drops a waiting
    message or an outstanding delivery. *)
Theorem sender_setup_rerun getRetrySequence TIMEOUT queueName b :
  let sender := connectSenderToQueue getRetrySequence TIMEOUT queueName (λ a, a) in
  exchange_accepts b (queueName +:+ "-retry") (mkExchangeDecl "fanout" true) →
  queue_accepts b queueName (mkQueueOptions true None None None) →
  ∃ replies1 b1 replies2 b2,
    setup sender b = Resolved (replies1, b1)
    ∧ setup sender b1 = Resolved (replies2, b2)
    ∧ exchanges b2 = exchanges b1
    ∧ queues b2 = queues b1
    ∧ bindings b2 = bindings b1
    ∧ prefetchCount b2 = prefetchCount b1
    ∧ (∀ q, pending b2 q = pending b q)
    ∧ unacked b2 = unacked b.
Proof.
  intros sender Hx Hq.
  eexists _, (afterSenderSetup queueName b), _,
    (afterSenderSetup queueName (afterSenderSetup queueName b)).
  split; [by apply senderSetup_run|].
  split.
  { apply senderSetup_run.
    - unfold exchange_accepts. simpl. by rewrite lookup_insert_eq.
    - unfold queue_accepts. simpl. by rewrite lookup_insert_eq. }
  split; [simpl; by rewrite insert_insert_eq|].
  split.
  { unfold afterSenderSetup at 1. cbn [queues with_consumers with_prefetch
      with_bindings with_queues with_exchanges].
    rewrite pending_afterSenderSetup. simpl. by rewrite insert_insert_eq. }
  split; [simpl; apply bound_again|].
  split; [done|].
  split; [|done].
  intros q. by rewrite !pending_afterSenderSetup.
Qed.

Lemma sender_setup_rerun_witness :
  ∃ replies1 b1 replies2 b2,
    setup (connectSenderToQueue paymentsBackoff 300000 "payments" (λ a, a)) busyBroker
    = Resolved (replies1, b1)
    ∧ setup (connectSenderToQueue paymentsBackoff 300000 "payments" (λ a, a)) b1
      = Resolved (replies2, b2)
    ∧ exchanges b2 = exchanges b1
    ∧ queues b2 = queues b1
    ∧ bindings b2 = bindings b1
    ∧ prefetchCount b2 = prefetchCount b1
    ∧ (∀ q, pending b2 q = pending busyBroker q)
    ∧ unacked b2 = [sampleJob; laterJob].
Proof.
  apply (sender_setup_rerun paymentsBackoff 300000 "payments" busyBroker);
    apply (bool_decide_unpack _); exact I.
Defined.

(** X5. A worker's setup can run again: on the broker its first run left,
    a second run resolves and changes no exchange, queue, binding or
    prefetch, also when the sender queue is the work queue itself; neither
    run drops a waiting message or an outstanding delivery. *)
Theorem worker_setup_rerun getRetrySequence queueName senderQueue b :
  let worker := connectWorkerToQueue getRetrySequence queueName senderQueue (λ a, a) in
  exchange_accepts b (queueName +:+ "-retry") (mkExchangeDecl "fanout" true) →
  queue_accepts b queueName (mkQueueOptions true None None None) →
  queue_accepts b senderQueue (mkQueueOptions true None None None) →
  ∃ replies1 b1 replies2 b2,
    setup worker b = Resolved (replies1, b1)
    ∧ setup worker b1 = Resolved (replies2, b2)
    ∧ exchanges b2 = exchanges b1
    ∧ queues b2 = queues b1
    ∧ bindings b2 = bindings b1
    ∧ prefetchCount b2 = prefetchCount b1
    ∧ (∀ q, pending b2 q = pending b q)
    ∧ unacked b2 = unacked b.
Proof.
  intros worker Hx Hq Hs.
  destruct (workerSetup_topology queueName senderQueue b)
    as ((Hexchange & Hwork & _) & Hsender).
  eexists _, (afterWorkerSetup queueName senderQueue b), _,
    (afterWorkerSetup queueName senderQueue (afterWorkerSetup queueName senderQueue b)).
  split; [by apply workerSetup_run|].
  split.
  { apply workerSetup_run.
    - unfold exchange_accepts. by rewrite Hexchange.
    - unfold queue_accepts.
      destruct (queues (afterWorkerSetup queueName senderQueue b) !! queueName);
        by simplify_eq/=.
    - unfold queue_accepts.
      destruct (queues (afterWorkerSetup queueName senderQueue b) !! senderQueue);
        by simplify_eq/=. }
  split; [simpl; by rewrite insert_insert_eq|].
  split.
  { rewrite !queues_afterWorkerSetup, !pending_afterWorkerSetup.
    apply insert_pair_again. }
  split; [simpl; apply bound_again|].
  split; [done|].
  split; [|done].
  intros q. by rewrite !pending_afterWorkerSetup.
Qed.

Lemma worker_setup_rerun_witness :
  ∃ replies1 b1 replies2 b2,
    setup (connectWorkerToQueue paymentsBackoff "payments" "payments" (λ a, a)) busyBroker
    = Resolved (replies1, b1)
    ∧ setup (connectWorkerToQueue paymentsBackoff "payments" "payments" (λ a, a)) b1
      = Resolved (replies2, b2)
    ∧ exchanges b2 = exchanges b1
    ∧ queues b2 = queues b1
    ∧ bindings b2 = bindings b1
    ∧ prefetchCount b2 = prefetchCount b1
    ∧ (∀ q, pending b2 q = pending busyBroker q)
    ∧ unacked b2 = [sampleJob; laterJob].
Proof.
  apply (worker_setup_rerun paymentsBackoff "payments" "payments" busyBroker);
    apply (bool_decide_unpack _); exact I.
Defined.

Lemma pending_afterWatcherSetup queueName workerQueue b q :
  pending (afterWatcherSetup queueName workerQueue b) q = pending b q.
Proof.
  unfold afterWatcherSetup, declareDurable. cbv zeta.
  destruct (truthy workerQueue).
  - by rewrite !pending_redeclared.
  - by rewrite pending_redeclared.
Qed.

Lemma queues_afterWatcherSetup queueName workerQueue b :
  queues (afterWatcherSetup queueName workerQueue b)
  = let target :=
      <[queueName := mkQueueState durableQueue (pending b queueName)]> (queues b) in
    if truthy workerQueue
    then <[default "" workerQueue :=
             mkQueueState durableQueue (pending b (default "" workerQueue))]> target
    else target.
Proof.
  unfold afterWatcherSetup, declareDurable. cbv zeta.
  destruct (truthy workerQueue); [|done].
  cbn [queues with_queues]. by rewrite pending_redeclared.
Qed.

(** X6. A watcher's setup can run again: on the broker its first run left,
    a second run resolves and leaves every queue as it was; neither run
    drops a waiting message, and none touches exchanges, bindings,
    consumers or outstanding deliveries. *)
Theorem watcher_setup_rerun queueName workerQueue b :
  let watcher := connectWatcherToQueue queueName workerQueue (λ a, a) in
  queue_accepts b queueName (mkQueueOptions true None None None) →
  (∀ w, workerQueue = Some w →
        queue_accepts b w (mkQueueOptions true None None None)) →
  ∃ replies1 b1 replies2 b2,
    setup watcher b = Resolved (replies1, b1)
    ∧ setup watcher b1 = Resolved (replies2, b2)
    ∧ queues b2 = queues b1
    ∧ (∀ q, pending b2 q = pending b q)
    ∧ exchanges b2 = exchanges b
    ∧ bindings b2 = bindings b
    ∧ consumers b2 = consumers b
    ∧ unacked b2 = unacked b.
Proof.
  intros watcher Hq Hw.
  destruct (watcherSetup_run queueName workerQueue (λ a, a) b Hq Hw) as [replies1 Hrun1].
  assert (∀ q, queue_accepts b q durableQueue →
               queue_accepts (afterWatcherSetup queueName workerQueue b) q durableQueue)
    as Hstill.
  { intros q Hacc. unfold afterWatcherSetup, declareDurable. cbv zeta.
    destruct (truthy workerQueue); repeat apply queue_accepts_after_declare; done. }
  destruct (watcherSetup_run queueName workerQueue (λ a, a)
              (afterWatcherSetup queueName workerQueue b)) as [replies2 Hrun2].
  { by apply Hstill. }
  { intros w Hsome. apply Hstill. by apply Hw. }
  eexists replies1, _, replies2, _.
  split; [exact Hrun1|]. split; [exact Hrun2|].
  split.
  { rewrite queues_afterWatcherSetup. cbv zeta.
    rewrite !pending_afterWatcherSetup.
    rewrite queues_afterWatcherSetup. cbv zeta.
    destruct (truthy workerQueue).
    - apply insert_pair_again.
    - apply insert_insert_eq. }
  split; [intros q; by rewrite !pending_afterWatcherSetup|].
  unfold afterWatcherSetup. by destruct (truthy workerQueue).
Qed.

Lemma watcher_setup_rerun_witness :
  ∃ replies1 b1 replies2 b2,
    setup (connectWatcherToQueue "payments" (Some "worker") (λ a, a)) busyBroker
    = Resolved (replies1, b1)
    ∧ setup (connectWatcherToQueue "payments" (Some "worker") (λ a, a)) b1
      = Resolved (replies2, b2)
    ∧ queues b2 = queues b1
    ∧ (∀ q, pending b2 q = pending busyBroker q)
    ∧ exchanges b2 = exchanges busyBroker
    ∧ bindings b2 = bindings busyBroker
    ∧ consumers b2 = consumers busyBroker
    ∧ unacked b2 = unacked busyBroker.
Proof.
  apply (watcher_setup_rerun "payments" (Some "worker") busyBroker).
  - apply (bool_decide_unpack _). exact I.
  - intros w [= <-]. apply (bool_decide_unpack _). exact I.
Defined.

(** ** A setup the broker refuses *)

Lemma assertExchange_refused b x type isDurable :
  ¬ exchange_accepts b x (mkExchangeDecl type isDurable) →
  Channel.assertExchange x type isDurable b = Rejected (PRECONDITION_FAILED x).
Proof.
  unfold exchange_accepts, Channel.assertExchange.
  destruct (exchanges b !! x) as [d|]; [|tauto].
  intros Hne. by rewrite decide_False.
Qed.

Lemma promiseAll_later_refusal {A} (p : Chan A) rest b x b1 e :
  p b = Resolved (x, b1) →
  promiseAll rest b1 = Rejected e →
  promiseAll (p :: rest) b = Rejected e.
Proof.
  intros Hp Hrest. cbn [promiseAll].
  erewrite await_resolved by exact Hp.
  by erewrite await_rejected by exact Hrest.
Qed.

Lemma senderSetup_refused {R} getRetrySequence TIMEOUT queueName (cb : HandlerArgs → R) b :
  ¬ (exchange_accepts b (queueName +:+ "-retry") (mkExchangeDecl "fanout" true)
     ∧ queue_accepts b queueName durableQueue) →
  ∃ entity,
    setup (connectSenderToQueue getRetrySequence TIMEOUT queueName cb) b
    = Rejected (PRECONDITION_FAILED entity).
Proof.
  intros Hno. unfold connectSenderToQueue. cbn [setup].
  destruct (decide (exchange_accepts b (queueName +:+ "-retry")
                      (mkExchangeDecl "fanout" true))) as [Hx|Hx].
  - exists queueName.
    eapply promiseAll_later_refusal; [by apply assertExchange_accepted|].
    apply promiseAll_first_refusal, assertQueue_refused. tauto.
  - eexists. by apply promiseAll_first_refusal, assertExchange_refused.
Qed.

(** X7. The consuming roles do not take over a queue or exchange that
    exists with other parameters: when the dead-letter exchange is declared
    otherwise the setup of either role rejects with PRECONDITION_FAILED on
    the exchange; when the work queue is, on the work queue; and a worker's
    setup also rejects when only its sender queue is declared otherwise. *)
Theorem consumer_setup_refused getRetrySequence TIMEOUT queueName senderQueue b :
  let sender := connectSenderToQueue getRetrySequence TIMEOUT queueName (λ a, a) in
  let worker := connectWorkerToQueue getRetrySequence queueName senderQueue (λ a, a) in
  let exchange := queueName +:+ "-retry" in
  (¬ exchange_accepts b exchange (mkExchangeDecl "fanout" true) →
     setup sender b = Rejected (PRECONDITION_FAILED exchange)
     ∧ setup worker b = Rejected (PRECONDITION_FAILED exchange))
  ∧ (exchange_accepts b exchange (mkExchangeDecl "fanout" true) →
     ¬ queue_accepts b queueName (mkQueueOptions true None None None) →
     setup sender b = Rejected (PRECONDITION_FAILED queueName)
     ∧ setup worker b = Rejected (PRECONDITION_FAILED queueName))
  ∧ (exchange_accepts b exchange (mkExchangeDecl "fanout" true) →
     queue_accepts b queueName (mkQueueOptions true None None None) →
     ¬ queue_accepts b senderQueue (mkQueueOptions true None None None) →
     setup worker b = Rejected (PRECONDITION_FAILED senderQueue)).
Proof.
  intros sender worker exchange.
  unfold sender, worker, connectSenderToQueue, connectWorkerToQueue. cbn [setup].
  split; [|split].
  - intros Hx.
    split; by apply promiseAll_first_refusal, assertExchange_refused.
  - intros Hx Hq.
    split; (eapply promiseAll_later_refusal; [by apply assertExchange_accepted|];
            by apply promiseAll_first_refusal, assertQueue_refused).
  - intros Hx Hq Hs.
    eapply promiseAll_later_refusal; [by apply assertExchange_accepted|].
    eapply promiseAll_later_refusal; [by apply assertQueue_accepted|].
    apply promiseAll_first_refusal, assertQueue_refused.
    intros Hacc. apply Hs. unfold queue_accepts in *. simpl in Hacc.
    destruct (decide (queueName = senderQueue)) as [<-|Hne]; [done|].
    by rewrite lookup_insert_ne in Hacc.
Qed.

Lemma consumer_setup_refused_witness :
  setup (connectSenderToQueue paymentsBackoff 300000 "payments" (λ a, a)) foreignBroker
  = Rejected (PRECONDITION_FAILED "payments")
  ∧ setup (connectWorkerToQueue paymentsBackoff "jobs" "payments" (λ a, a)) foreignBroker
    = Rejected (PRECONDITION_FAILED "payments").
Proof.
  assert (¬ queue_accepts foreignBroker "payments" (mkQueueOptions true None None None))
    as Hforeign by (intros Hacc; vm_compute in Hacc; discriminate Hacc).
  split.
  - exact (proj1 (proj1 (proj2 (consumer_setup_refused paymentsBackoff 300000
                                  "payments" "results" foreignBroker)) I Hforeign)).
  - exact (proj2 (proj2 (consumer_setup_refused paymentsBackoff 300000
                           "jobs" "payments" foreignBroker)) I I Hforeign).
Defined.

(** ** Delay queues never conflict with themselves *)

Lemma qopts_after_requeue (settled : list Delivery) (qs : gmap string QueueState) q :
  qopts <$> foldr (λ d, alter (requeue (body d)) (origin d)) qs settled !! q
  = qopts <$> qs !! q.
Proof.
  induction settled as [|d settled IH]; [done|]. simpl.
  rewrite lookup_alter. case_decide as Hq; [|done].
  rewrite Hq, <- IH. by destruct (foldr _ qs settled !! q).
Qed.

Lemma queue_accepts_same_options b b' q o :
  qopts <$> queues b' !! q = qopts <$> queues b !! q →
  queue_accepts b q o → queue_accepts b' q o.
Proof.
  unfold queue_accepts. intros Hsame Hacc.
  destruct (queues b' !! q) as [st'|]; [|done].
  destruct (queues b !! q) as [st|]; by simplify_eq/=.
Qed.

Lemma delayQueuesConsistent_same_options timeout queueName b b' :
  (∀ q, qopts <$> queues b' !! q = qopts <$> queues b !! q) →
  delayQueuesConsistent timeout queueName b →
  delayQueuesConsistent timeout queueName b'.
Proof.
  intros Hsame [Hretry Hresend]. split.
  - intros delay. apply (queue_accepts_same_options b); [apply Hsame | apply Hretry].
  - apply (queue_accepts_same_options b); [apply Hsame | apply Hresend].
Qed.

Lemma delayQueuesConsistent_retry timeout queueName b delay ms :
  delayQueuesConsistent timeout queueName b →
  delayQueuesConsistent timeout queueName
    (with_queues
       <[queueName +:+ "-retry-" +:+ pretty delay :=
           mkQueueState (retryQueueOptions (queueName +:+ "-retry") delay) ms]> b).
Proof.
  intros [Hretry Hresend]. split.
  - intros delay'.
    destruct (decide (delay = delay')) as [<-|Hne].
    + apply queue_accepts_insert.
    + apply queue_accepts_insert_ne; [|done].
      intros Hname. by apply Hne, (retry_name_keyed_by_delay queueName).
  - apply queue_accepts_insert_ne; [apply retry_name_not_resend|done].
Qed.

Lemma delayQueuesConsistent_resend timeout queueName b ms :
  delayQueuesConsistent timeout queueName b →
  delayQueuesConsistent timeout queueName
    (with_queues
       <[queueName +:+ "-check-tx-status" :=
           mkQueueState (retryQueueOptions (queueName +:+ "-retry") timeout) ms]> b).
Proof.
  intros [Hretry Hresend]. split.
  - intros delay. apply queue_accepts_insert_ne; [|done].
    intros Hname. by apply (retry_name_not_resend queueName (pretty delay)).
  - apply queue_accepts_insert.
Qed.

Lemma delayQueuesConsistent_work_queue timeout queueName b st :
  delayQueuesConsistent timeout queueName b →
  delayQueuesConsistent timeout queueName (with_queues <[queueName := st]> b).
Proof.
  intros [Hretry Hresend]. split.
  - intros delay. apply queue_accepts_insert_ne; [|done].
    intros Hname. by apply (retry_name_not_work_queue queueName (pretty delay)).
  - apply queue_accepts_insert_ne; [|done].
    intros Hname. by apply (resend_name_not_work_queue queueName).
Qed.

Lemma ack_resolved job allUpTo b r b' :
  Channel.ack job allUpTo b = Resolved (r, b') →
  b' = with_unacked
         (filter (λ d, Channel.settles job (default false allUpTo) d = false)) b.
Proof.
  unfold Channel.ack. cbv zeta. by intros [= _ <-].
Qed.

Lemma nack_resolved job allUpTo requeueFlag b r b' :
  Channel.nack job allUpTo requeueFlag b = Resolved (r, b') →
  let settled := filter (λ d, Channel.settles job allUpTo d = true) (unacked b) in
  b' = with_queues
         (λ qs, if requeueFlag
                then foldr (λ d, alter (requeue (body d)) (origin d)) qs settled
                else qs)
         (with_unacked (filter (λ d, Channel.settles job allUpTo d = false)) b).
Proof.
  unfold Channel.nack. cbv zeta. by intros [= _ <-].
Qed.

(** X8. A sender never trips over its own delay queues. Call a broker
    consistent for a work queue when each of its retry queues that exists
    has the parameters [generateRetry] gives it and its resend queue those
    of [generateTransactionResend]. On a consistent broker every
    [scheduleForRetry] (any payload, any count, or none) and every
    [scheduleTransactionResend] resolves, and the broker stays consistent;
    the sender's setup, [ackMsg] and [nackMsg] keep it consistent too. *)
Theorem delay_queues_stay_consistent getRetrySequence TIMEOUT queueName delivered job b :
  let session := connectSenderToQueue getRetrySequence TIMEOUT queueName (λ a, a) in
  let sender := handed session delivered in
  delayQueuesConsistent TIMEOUT queueName b →
  (∀ data n, ∃ b',
     scheduleForRetry sender data n b = Resolved (tt, b')
     ∧ delayQueuesConsistent TIMEOUT queueName b')
  ∧ (∃ resend,
       scheduleTransactionResend sender = Some resend
       ∧ ∀ data, ∃ b',
           resend data b = Resolved (tt, b')
           ∧ delayQueuesConsistent TIMEOUT queueName b')
  ∧ preserves (delayQueuesConsistent TIMEOUT queueName) (setup session)
  ∧ preserves (delayQueuesConsistent TIMEOUT queueName) (ackMsg sender job)
  ∧ preserves (delayQueuesConsistent TIMEOUT queueName) (nackMsg sender job).
Proof.
  intros session sender Hok. pose proof Hok as [Hretry Hresend].
  split; [|split; [|split; [|split]]].
  - intros data n. eexists. split; [by apply generateRetry_run|].
    by apply delayQueuesConsistent_retry.
  - eexists. split; [reflexivity|].
    intros data. eexists. split; [by apply generateTransactionResend_run|].
    by apply delayQueuesConsistent_resend.
  - intros c replies c' Hc Hrun.
    destruct (decide (exchange_accepts c (queueName +:+ "-retry")
                        (mkExchangeDecl "fanout" true)
                      ∧ queue_accepts c queueName durableQueue)) as [[Hx Hq]|Hno].
    + unfold session in Hrun. rewrite senderSetup_run in Hrun by done.
      injection Hrun as _ <-.
      eapply delayQueuesConsistent_same_options;
        [|by apply (delayQueuesConsistent_work_queue TIMEOUT queueName c
                      (mkQueueState durableQueue (pending c queueName)))].
      done.
    + destruct (senderSetup_refused getRetrySequence TIMEOUT queueName (λ a, a) c Hno)
        as [entity Hrefused].
      unfold session in Hrun. by rewrite Hrefused in Hrun.
  - intros c r c' Hc Hrun. apply ack_resolved in Hrun as ->.
    by eapply delayQueuesConsistent_same_options.
  - intros c r c' Hc Hrun. apply nack_resolved in Hrun as ->.
    eapply delayQueuesConsistent_same_options; [|exact Hc].
    intros q. apply qopts_after_requeue.
Qed.

Lemma delay_queues_stay_consistent_witness :
  delayQueuesConsistent 300000 "payments" busyBroker
  ∧ ∃ b',
      scheduleForRetry
        (handed (connectSenderToQueue paymentsBackoff 300000 "payments" (λ a, a)) sampleJob)
        sampleTx None busyBroker
      = Resolved (tt, b')
      ∧ delayQueuesConsistent 300000 "payments" b'.
Proof.
  assert (delayQueuesConsistent 300000 "payments" busyBroker) as Hok.
  { split.
    - intros delay. unfold queue_accepts. simpl.
      rewrite lookup_singleton_ne; [exact I|].
      intros Hname. by apply (retry_name_not_work_queue "payments" (pretty delay)).
    - apply (bool_decide_unpack _). exact I. }
  split; [exact Hok|].
  exact (proj1 (delay_queues_stay_consistent paymentsBackoff 300000 "payments"
                  sampleJob sampleJob busyBroker Hok) sampleTx None).
Defined.

(** ** Nothing the client does is lost in a broker restart *)

Lemma preserves_bind {A B} (P : Broker → Prop) (m : Chan A) (k : A → Chan B) :
  preserves P m → (∀ a, preserves P (k a)) → preserves P (m ≫= k).
Proof.
  intros Hm Hk b r b' HP Hrun. unfold mbind, Chan_bind in Hrun.
  destruct (m b) as [[a b1]|e] eqn:Hmb; [|done].
  eapply Hk; [|exact Hrun]. by eapply Hm.
Qed.

Lemma preserves_promiseAll {A} (P : Broker → Prop) (ps : list (Chan A)) :
  Forall (preserves P) ps → preserves P (promiseAll ps).
Proof.
  induction 1 as [|p ps Hp _ IH]; cbn [promiseAll].
  - by intros b r b' HP [= _ <-].
  - apply preserves_bind; [exact Hp|]. intros x.
    apply preserves_bind; [exact IH|]. intros xs.
    by intros b r b' HP [= _ <-].
Qed.

Lemma allDurable_frame b b' :
  exchanges b' = exchanges b → queues b' = queues b → unacked b' = unacked b →
  allDurable b → allDurable b'.
Proof. unfold allDurable. by intros -> -> ->. Qed.

Lemma allDurable_assertExchange x type :
  preserves allDurable (Channel.assertExchange x type true).
Proof.
  intros b r b' (Hx & Hq & Hu) Hrun. unfold Channel.assertExchange in Hrun.
  destruct (exchanges b !! x) as [d|] eqn:Hlook.
  - case_decide; [|done]. by simplify_eq.
  - injection Hrun as _ <-. split; [|done].
    intros x' d'. simpl. rewrite lookup_insert. case_decide.
    + by intros [= <-].
    + apply Hx.
Qed.

Lemma allDurable_assertQueue q o :
  durable o = true → preserves allDurable (Channel.assertQueue q o).
Proof.
  intros Hdurable b r b' (Hx & Hq & Hu) Hrun. unfold Channel.assertQueue in Hrun.
  destruct (queues b !! q) as [st|] eqn:Hlook.
  - case_decide; [|done]. by simplify_eq.
  - injection Hrun as _ <-. split; [done|]. split; [|done].
    intros q' st'. simpl. rewrite lookup_insert. case_decide.
    + intros [= <-]. by split.
    + apply Hq.
Qed.

Lemma allDurable_bindQueue q x : preserves allDurable (Channel.bindQueue q x).
Proof.
  intros b r b' Hok Hrun. unfold Channel.bindQueue in Hrun.
  destruct (queues b !! q); [|done]. destruct (exchanges b !! x); [|done].
  injection Hrun as _ <-. by eapply allDurable_frame.
Qed.

Lemma allDurable_prefetch n : preserves allDurable (Channel.prefetch n).
Proof. intros b r b' Hok [= _ <-]. by eapply allDurable_frame. Qed.

Lemma allDurable_consume q : preserves allDurable (Channel.consume q).
Proof.
  intros b r b' Hok Hrun. unfold Channel.consume in Hrun.
  destruct (queues b !! q); [|done].
  injection Hrun as _ <-. by eapply allDurable_frame.
Qed.

Lemma allDurable_sendToQueue q data headers :
  preserves allDurable (Channel.sendToQueue q data (mkPublishOptions true headers)).
Proof.
  intros b r b' (Hx & Hq & Hu) [= _ <-]. split; [done|]. split; [|done].
  intros q' st'. simpl. rewrite lookup_alter. case_decide as Hkey; [|apply Hq].
  subst q'. destruct (queues b !! q) as [st|] eqn:Hlook; [|done].
  intros [= <-]. destruct (Hq q st Hlook) as [Hdurable Hpersistent].
  split; [done|]. simpl. apply Forall_app. split; [done|].
  by apply Forall_singleton.
Qed.

Lemma allDurable_ack job allUpTo : preserves allDurable (Channel.ack job allUpTo).
Proof.
  intros b r b' (Hx & Hq & Hu) Hrun. apply ack_resolved in Hrun as ->.
  split; [done|]. split; [done|]. simpl.
  rewrite Forall_forall in Hu. apply Forall_forall.
  intros d [_ Hd]%list_elem_of_filter. by apply Hu.
Qed.

Lemma allDurable_requeued (settled : list Delivery) (qs : gmap string QueueState) :
  Forall (λ d, persistent (properties (body d)) = true) settled →
  (∀ q st, qs !! q = Some st →
     durable (qopts st) = true
     ∧ Forall (λ m, persistent (properties m) = true) (messages st)) →
  ∀ q st, foldr (λ d, alter (requeue (body d)) (origin d)) qs settled !! q = Some st →
    durable (qopts st) = true
    ∧ Forall (λ m, persistent (properties m) = true) (messages st).
Proof.
  induction 1 as [|d settled Hd _ IH]; intros Hqs q st; [apply Hqs|].
  simpl. rewrite lookup_alter. case_decide as Hkey; [|by apply IH].
  subst q. destruct (foldr _ qs settled !! origin d) as [st0|] eqn:Hlook; [|done].
  intros [= <-]. destruct (IH Hqs (origin d) st0 Hlook) as [Hdurable Hpersistent].
  split; [done|]. simpl. by constructor.
Qed.

Lemma allDurable_nack job allUpTo requeueFlag :
  preserves allDurable (Channel.nack job allUpTo requeueFlag).
Proof.
  intros b r b' (Hx & Hq & Hu) Hrun. apply nack_resolved in Hrun as ->.
  rewrite Forall_forall in Hu.
  split; [done|]. split.
  - simpl. destruct requeueFlag; [|done].
    apply allDurable_requeued; [|done].
    apply Forall_forall. intros d [_ Hd]%list_elem_of_filter. by apply Hu.
  - simpl. apply Forall_forall.
    intros d [_ Hd]%list_elem_of_filter. by apply Hu.
Qed.

Lemma allDurable_generateRetry getRetrySequence data n queueName dlx :
  preserves allDurable (generateRetry getRetrySequence data n queueName dlx).
Proof.
  apply preserves_bind; [by apply allDurable_assertQueue|].
  intros _. apply allDurable_sendToQueue.
Qed.

Lemma allDurable_generateTransactionResend TIMEOUT data queueName dlx :
  preserves allDurable (generateTransactionResend TIMEOUT data queueName dlx).
Proof.
  apply preserves_bind; [by apply allDurable_assertQueue|].
  intros _. apply allDurable_sendToQueue.
Qed.

Lemma allDurable_deliver q b d b' :
  allDurable b → deliver q b = Some (d, b') → allDurable b'.
Proof.
  intros (Hx & Hq & Hu) Hrun. unfold deliver in Hrun.
  case_decide; [|done].
  destruct (queues b !! q) as [[o [|m rest]]|] eqn:Hlook; [done| |done].
  injection Hrun as <- <-.
  destruct (Hq q _ Hlook) as [Hdurable Hpersistent]. simpl in *.
  apply Forall_cons in Hpersistent as [Hm Hrest].
  split; [done|]. split.
  - intros q' st'. simpl. rewrite lookup_insert. case_decide.
    + by intros [= <-].
    + apply Hq.
  - simpl. apply Forall_app. split; [done|]. by apply Forall_singleton.
Qed.

Create HintDb durable.

#[local] Hint Resolve allDurable_assertExchange allDurable_assertQueue
  allDurable_bindQueue allDurable_prefetch allDurable_consume
  Forall_cons_2 Forall_nil_2 : durable.

(** X11. The client keeps the broker restart-safe. If every exchange and
    queue is durable and every message, waiting or outstanding, is
    persistent, this still holds after any of: the setup of a sender, a
    worker or a watcher; a watcher's [sendToQueue] or [sendToWorker]; a
    worker's [sendToSenderQueue]; [scheduleForRetry] of either consuming
    role; a sender's [scheduleTransactionResend]; [ackMsg] and [nackMsg] of
    either consuming role; and a delivery by the broker. *)
Theorem client_keeps_broker_durable getRetrySequence TIMEOUT
    queueName senderQueue workerQueue delivered job data n :
  let sender := connectSenderToQueue getRetrySequence TIMEOUT queueName (λ a, a) in
  let worker := connectWorkerToQueue getRetrySequence queueName senderQueue (λ a, a) in
  let watcher := connectWatcherToQueue queueName workerQueue (λ a, a) in
  preserves allDurable (setup sender)
  ∧ preserves allDurable (setup worker)
  ∧ preserves allDurable (setup watcher)
  ∧ preserves allDurable (sendToQueue (handed watcher) data)
  ∧ (∀ toWorker, sendToWorker (handed watcher) = Some toWorker →
       preserves allDurable (toWorker data))
  ∧ (∀ forward, sendToSenderQueue (handed worker delivered) = Some forward →
       preserves allDurable (forward data))
  ∧ preserves allDurable (scheduleForRetry (handed sender delivered) data n)
  ∧ preserves allDurable (scheduleForRetry (handed worker delivered) data n)
  ∧ (∀ resend, scheduleTransactionResend (handed sender delivered) = Some resend →
       preserves allDurable (resend data))
  ∧ preserves allDurable (ackMsg (handed sender delivered) job)
  ∧ preserves allDurable (nackMsg (handed sender delivered) job)
  ∧ preserves allDurable (ackMsg (handed worker delivered) job)
  ∧ preserves allDurable (nackMsg (handed worker delivered) job)
  ∧ (∀ q b d b', allDurable b → deliver q b = Some (d, b') → allDurable b').
Proof.
  intros sender worker watcher.
  split.
  { apply preserves_promiseAll. auto 10 with durable. }
  split.
  { apply preserves_promiseAll. auto 10 with durable. }
  split.
  { apply preserves_promiseAll.
    destruct (truthy workerQueue); cbn [map]; auto 10 with durable. }
  split; [apply allDurable_sendToQueue|].
  split.
  { intros toWorker Hsome. unfold watcher, connectWatcherToQueue in Hsome.
    cbn [handed sendToWorker] in Hsome.
    destruct (truthy workerQueue); [|done].
    injection Hsome as <-. apply allDurable_sendToQueue. }
  split.
  { intros forward [= <-]. apply allDurable_sendToQueue. }
  split; [apply allDurable_generateRetry|].
  split; [apply allDurable_generateRetry|].
  split.
  { intros resend [= <-]. apply allDurable_generateTransactionResend. }
  split; [apply allDurable_ack|].
  split; [apply allDurable_nack|].
  split; [apply allDurable_ack|].
  split; [apply allDurable_nack|].
  intros q b d b'. apply allDurable_deliver.
Qed.

Lemma client_keeps_broker_durable_witness :
  allDurable busyBroker
  ∧ ∃ b',
      nackMsg
        (handed (connectSenderToQueue paymentsBackoff 300000 "payments" (λ a, a)) sampleJob)
        sampleJob busyBroker
      = Resolved (tt, b')
      ∧ allDurable b'.
Proof.
  assert (allDurable busyBroker) as Hok.
  { split; [|split].
    - intros x d Hx. cbn [busyBroker exchanges] in Hx.
      apply lookup_singleton_Some in Hx as [_ <-]. reflexivity.
    - intros q st Hq. cbn [busyBroker queues] in Hq.
      apply lookup_singleton_Some in Hq as [_ <-]. split; [reflexivity|constructor].
    - repeat constructor. }
  split; [exact Hok|].
  eexists. split; [reflexivity|].
  destruct (client_keeps_broker_durable paymentsBackoff 300000 "payments" "results" None
              sampleJob sampleJob sampleTx None)
    as (_ & _ & _ & _ & _ & _ & _ & _ & _ & _ & Hnack & _).
  eapply Hnack; [exact Hok | reflexivity].
Defined.
